(** * Shor factorisation with a pluggable order finder: model and properties

    Shallow embedding of [main.py] and [module_exp.py].

    - Python integers are [Z]; [//] and [%] are [Z.div] and [Z.modulo]
      (both are floored, so they agree with Python for every non-zero
      divisor); [**] with a non-negative exponent is [Z.pow].
    - A Python call either returns or raises: [outcome A].
    - A finite IEEE double is represented by its exact rational value
      ([float := Q]).  Only three float computations occur in the program:
      the true division [m / 2 ** b] (modelled bit-exactly, with correct
      rounding to 53 bits), and [math.log2] / [math.pow], which belong to
      the C library and are taken as an interface ([FloatOps]).
    - The random generator and the quantum sampler are the only sources of
      non-determinism; both are consumed once per attempt of [find_factor]
      and are modelled as attempt-indexed streams. *)

From Stdlib Require Import ZArith QArith Qabs Qround Qreduction.
From Stdlib Require Import Zdivisibility List Bool Lia.
From Stdlib Require Qcanon Finite String DecimalString.
Import ListNotations.

Local Open Scope Z_scope.

(* ================================================================= *)
(** ** Outcomes of Python calls *)

Inductive exn : Type :=
| ValueError
| ZeroDivisionError
| OverflowError
| IndexError
| AssertionError
| OutOfFuel.   (* not a Python exception: an unbounded loop of the model
                  was cut off by its iteration budget *)

Inductive outcome (A : Type) : Type :=
| Return (a : A)
| Raise (e : exn).

Arguments Return {A} a.
Arguments Raise {A} e.

Definition bind {A B : Type} (c : outcome A) (k : A -> outcome B) : outcome B :=
  match c with
  | Return a => k a
  | Raise e => Raise e
  end.

Notation "x <- c ;; k" := (bind c (fun x => k))
  (at level 61, c at next level, right associativity).

(* ================================================================= *)
(** ** Integer helpers of the Python runtime *)

(** [int.bit_length()] *)
Definition bit_length (n : Z) : Z :=
  if n =? 0 then 0 else Z.log2 (Z.abs n) + 1.

(** [list(range(a, b))] *)
Definition range (a b : Z) : list Z :=
  map (fun i => a + Z.of_nat i) (seq 0 (Z.to_nat (b - a))).

(** [1 < c < n] *)
Definition strictly_between (lo c hi : Z) : bool := (lo <? c) && (c <? hi).

(* ================================================================= *)
(** ** module_exp.py *)

Module ModularExp.

Record t : Type := mk {
  target : list Z;      (* dimensions of the target register *)
  exponent : list Z;    (* dimensions of the exponent register *)
  base : Z;
  modulus : Z
}.

(** [ModularExp.__init__] *)
Definition init (target exponent : list Z) (base modulus : Z) : outcome t :=
  if Z.of_nat (length target) <? bit_length modulus
  then Raise ValueError
  else Return (mk target exponent base modulus).

(** [ModularExp.apply]; register values are non-negative and the modulus
    is non-zero wherever the gate is used. *)
Definition apply (target exponent base modulus : Z) : Z :=
  if target >=? modulus then target
  else (target * base ^ exponent) mod modulus.

End ModularExp.

(* ================================================================= *)
(** ** main.py: classical order finder *)

(** The guard shared by both order finders. *)
Definition invalid_argument (x n : Z) : bool :=
  (x <? 2) || (n <=? x) || (Z.gcd x n >? 1).

(** [while y != 1: y = (x * y) % n; r += 1] *)
Fixpoint naive_loop (fuel : nat) (x n r y : Z) : outcome Z :=
  match fuel with
  | O => Raise OutOfFuel
  | S fuel' =>
      if negb (y =? 1)
      then naive_loop fuel' x n (r + 1) ((x * y) mod n)
      else Return r
  end.

Definition naive_order_finder (fuel : nat) (x n : Z) : outcome (option Z) :=
  if invalid_argument x n then Raise ValueError
  else r <- naive_loop fuel x n 1 x ;; Return (Some r).

(* ================================================================= *)
(** ** Floats and [fractions.Fraction] *)

Definition float : Type := Q.

(** Round [m / 2^shift] to the nearest integer, ties to even. *)
Definition round_half_even (m shift : Z) : Z :=
  let q := m / 2 ^ shift in
  let rest := m mod 2 ^ shift in
  let half := 2 ^ (shift - 1) in
  if shift <=? 0 then m
  else if rest <? half then q
  else if half <? rest then q + 1
  else if Z.even q then q else q + 1.

(** [float(m / 2 ** b)] for integers [m, b >= 0]: the double nearest to the
    quotient.  A double carries 53 significant bits and no bit below
    [2^-1074]. *)
Definition true_divide_pow2 (m b : Z) : outcome float :=
  if m =? 0 then Return 0%Q
  else
    let shift := Z.max 0 (Z.max (bit_length m - 53) (b - 1074)) in
    let mant := round_half_even m shift in
    if 2 ^ (1024 + b) <=? mant * 2 ^ shift then Raise OverflowError
    else Return (Qmake (mant * 2 ^ shift) (Z.to_pos (2 ^ b))).

(** [Fraction(n, d)]: lowest terms, positive denominator. *)
Definition Fraction (n d : Z) : outcome Q :=
  if d =? 0 then Raise ZeroDivisionError
  else Return (Qred (Qmake (Z.sgn d * n) (Z.to_pos (Z.abs d)))).

(** [Fraction.from_float] *)
Definition from_float (f : float) : Q := Qred f.

Definition numerator (f : Q) : Z := Qnum f.
Definition denominator (f : Q) : Z := Zpos (Qden f).

(** The [while True] loop of [Fraction.limit_denominator]; returns the
    variables live after the [break]. *)
Fixpoint limit_denominator_loop (fuel : nat) (max_denominator p0 q0 p1 q1 n d : Z)
  : outcome (Z * Z * Z * Z) :=
  match fuel with
  | O => Raise OutOfFuel
  | S fuel' =>
      if d =? 0 then Raise ZeroDivisionError
      else
        let a := n / d in
        let q2 := q0 + a * q1 in
        if q2 >? max_denominator then Return (p0, q0, p1, q1)
        else limit_denominator_loop fuel' max_denominator
               p1 q1 (p0 + a * p1) q2 d (n - a * d)
  end.

(** Iteration budget of the loop: the remainder [d] at least halves every
    two rounds. *)
Definition cf_fuel (d : Z) : nat := S (2 * S (Z.to_nat (Z.log2 d))).

(** [Fraction.limit_denominator] *)
Definition limit_denominator (self : Q) (max_denominator : Z) : outcome Q :=
  if max_denominator <? 1 then Raise ValueError
  else if denominator self <=? max_denominator then Return self
  else
    st <- limit_denominator_loop (cf_fuel (denominator self)) max_denominator
            0 1 1 0 (numerator self) (denominator self) ;;
    let '(p0, q0, p1, q1) := st in
    if q1 =? 0 then Raise ZeroDivisionError
    else
      let k := (max_denominator - q0) / q1 in
      bound1 <- Fraction (p0 + k * p1) (q0 + k * q1) ;;
      bound2 <- Fraction p1 q1 ;;
      if Qle_bool (Qabs (bound2 - self)) (Qabs (bound1 - self))
      then Return bound2
      else Return bound1.

(* ================================================================= *)
(** ** main.py: quantum order finder *)

(** What the program reads from a [cirq.Result]: the integer value of the
    measured exponent register ([result.data["exponent"][0]]) and the
    register's width ([result.measurements["exponent"].shape[1]]). *)
Record Result : Type := mkResult {
  exponent_as_integer : N;
  exponent_num_bits : N
}.

Definition eigenphase_of (result : Result) : outcome float :=
  true_divide_pow2 (Z.of_N (exponent_as_integer result))
                   (Z.of_N (exponent_num_bits result)).

Definition process_measurement (result : Result) (x n : Z) : outcome (option Z) :=
  eigenphase <- eigenphase_of result ;;
  f <- limit_denominator (from_float eigenphase) n ;;
  if numerator f =? 0 then Return None
  else
    let r := denominator f in
    if negb (x ^ r mod n =? 1) then Return None
    else Return (Some r).

Record Circuit : Type := mkCircuit {
  target : list Z;        (* line qubits of the target register *)
  exponent : list Z;      (* line qubits of the exponent register *)
  gate : ModularExp.t
}.

Definition make_order_finding_circuit (x n : Z) : outcome Circuit :=
  let L := bit_length n in
  let target := range 0 L in
  let exponent := range L (3 * L + 3) in
  if L =? 0 then Raise IndexError      (* target[L - 1] *)
  else
    g <- ModularExp.init (repeat 2 (length target))
                         (repeat 2 (length exponent)) x n ;;
    Return (mkCircuit target exponent g).

(** [sample] stands for [cirq.sample]: one shot of the circuit. *)
Definition quantum_order_finder (sample : Circuit -> Result) (x n : Z)
  : outcome (option Z) :=
  if invalid_argument x n then Raise ValueError
  else
    circuit <- make_order_finding_circuit x n ;;
    let measurement := sample circuit in
    process_measurement measurement x n.

(* ================================================================= *)
(** ** main.py: prime powers *)

(** The two C-library float routines the program calls. *)
Class FloatOps : Type := {
  log2 : Z -> outcome float;            (* math.log2(n) *)
  pow_inv : Z -> Z -> outcome float     (* math.pow(n, 1 / k) *)
}.

Fixpoint prime_power_loop {F : FloatOps} (n : Z) (ks : list Z) : outcome (option Z) :=
  match ks with
  | [] => Return None
  | k :: ks' =>
      c <- pow_inv n k ;;
      let c1 := Qfloor c in
      if c1 ^ k =? n then Return (Some c1)
      else
        let c2 := Qceiling c in
        if c2 ^ k =? n then Return (Some c2)
        else prime_power_loop n ks'
  end.

Definition find_factor_of_prime_power {F : FloatOps} (n : Z) : outcome (option Z) :=
  l <- log2 n ;;
  prime_power_loop n (range 2 (Qfloor l + 1)).

(* ================================================================= *)
(** ** main.py: the factor search *)

(** [sympy.isprime], exact. *)
Definition isprime (n : Z) : bool :=
  (2 <=? n) && forallb (fun d => negb (n mod d =? 0)) (range 2 n).

(** [random.randint(a, b)]; [draw] is the value the generator yields. *)
Definition randint (draw a b : Z) : outcome Z :=
  if b <? a then Raise ValueError else Return draw.

(** An order finder as [find_factor] sees it: the attempt number selects
    the finder's own randomness. *)
Definition order_finder_t : Type := nat -> Z -> Z -> outcome (option Z).

(** [for _ in range(max_attempts): ...] *)
Fixpoint find_factor_loop (n : Z) (order_finder : order_finder_t)
    (draws : nat -> Z) (attempt remaining : nat) : outcome (option Z) :=
  match remaining with
  | O => Return None
  | S remaining' =>
      let continue := find_factor_loop n order_finder draws (S attempt) remaining' in
      x <- randint (draws attempt) 2 (n - 1) ;;
      let c := Z.gcd x n in
      if strictly_between 1 c n then Return (Some c)
      else
        r <- order_finder attempt x n ;;
        match r with
        | None => continue
        | Some r =>
            if negb (r mod 2 =? 0) then continue
            else
              let y := x ^ (r / 2) mod n in
              if negb (strictly_between 1 y n) then Raise AssertionError
              else
                let c := Z.gcd (y - 1) n in
                if strictly_between 1 c n then Return (Some c)
                else continue
        end
  end.

Definition find_factor {F : FloatOps} (n : Z) (order_finder : order_finder_t)
    (max_attempts : Z) (draws : nat -> Z) : outcome (option Z) :=
  if isprime n then Return None
  else if n mod 2 =? 0 then Return (Some 2)
  else
    c <- find_factor_of_prime_power n ;;
    match c with
    | Some c => Return (Some c)
    | None => find_factor_loop n order_finder draws 0 (Z.to_nat max_attempts)
    end.

(* ================================================================= *)
(** ** A reference float implementation

    [find_factor_of_prime_power] observes its floats only through
    [math.floor] and [math.ceil].  The reference implementation returns,
    for each routine, a float with the floor and ceiling of the exact real
    result: the exact value when that is an integer, and a value strictly
    between the two neighbouring integers (for [pow_inv]) or the floor
    itself (for [log2]) otherwise. *)

(** Largest [c >= c0] with [c ^ k <= n], by upward scan. *)
Fixpoint iroot_scan (fuel : nat) (n k c : Z) : Z :=
  match fuel with
  | O => c
  | S fuel' => if (c + 1) ^ k <=? n then iroot_scan fuel' n k (c + 1) else c
  end.

Definition iroot (n k : Z) : Z := iroot_scan (Z.to_nat n) n k 0.

Definition reference_float_ops : FloatOps := {|
  log2 := fun n =>
    if n <=? 0 then Raise ValueError else Return (inject_Z (Z.log2 n));
  pow_inv := fun n k =>
    if k =? 0 then Raise ZeroDivisionError
    else if n <? 0 then Raise ValueError
    else
      let c := iroot n k in
      if c ^ k =? n then Return (inject_Z c)
      else Return (inject_Z c + (1 # 2))%Q
|}.

(* ================================================================= *)
(** ** Vocabulary of the statements *)

(** [r] is the multiplicative order of [x] modulo [n]. *)
Definition is_order (x n r : Z) : Prop :=
  0 < r /\ x ^ r mod n = 1 /\ forall r', 0 < r' < r -> x ^ r' mod n <> 1.

(** What the loop of [limit_denominator] maintains from its second round
    on, for a bound [M] and a denominator [D] of [self]. *)
Definition cf_inv (M D q0 q1 n d : Z) : Prop :=
  0 <= q0 <= M /\ 1 <= q1 <= M /\ 0 <= d < n /\
  n * q1 + d * q0 = D /\ Z.gcd n d = 1.

(** The measured integer fits the measured register. *)
Definition well_formed (result : Result) : Prop :=
  (exponent_as_integer result < 2 ^ exponent_num_bits result)%N.

(** [math.pow] of a positive integer is never negative. *)
Definition float_nonneg (F : FloatOps) : Prop :=
  forall n k c, pow_inv n k = Return c -> (0 <= c)%Q.

(** The float routines are accurate at [n]: [math.log2] has the right
    integer part, and whenever [n] has an exact integer [k]-th root,
    rounding [math.pow(n, 1 / k)] down or up finds it. *)
Definition float_accurate (F : FloatOps) (n : Z) : Prop :=
  (exists l, log2 n = Return l /\ Qfloor l = Z.log2 n) /\
  (forall k, 2 <= k <= Z.log2 n ->
     exists c, pow_inv n k = Return c /\
       forall root, 0 <= root -> root ^ k = n ->
         Qfloor c = root \/ Qceiling c = root).

(* ================================================================= *)
(** ** module_exp.py: registers and circuit diagram *)

(** A register of an arithmetic gate: a classical constant, or the qid
    dimensions of a quantum register. *)
Inductive register : Type :=
| Constant (value : Z)
| Qubits (dims : list Z).

(** [ModularExp] with the exponent typed as in the source,
    [Union[int, Sequence[int]]]. *)
Module Registers.
Import String.


Record gate : Type := mk {
  target : list Z;
  exponent : register;
  base : Z;
  modulus : Z
}.

(** [ModularExp.__init__] *)
Definition init (target : list Z) (exponent : register) (base modulus : Z)
  : outcome gate :=
  if Z.of_nat (List.length target) <? bit_length modulus
  then Raise ValueError
  else Return (mk target exponent base modulus).

(** [ModularExp.registers] *)
Definition registers (self : gate) : list register :=
  [Qubits (target self); exponent self; Constant (base self);
   Constant (modulus self)].

(** [ModularExp.with_registers] *)
Definition with_registers (new_registers : list register) : outcome gate :=
  match new_registers with
  | [target; exponent; base; modulus] =>
      match target with
      | Constant _ => Raise ValueError
      | Qubits target =>
          match base with
          | Qubits _ => Raise ValueError
          | Constant base =>
              match modulus with
              | Qubits _ => Raise ValueError
              | Constant modulus => init target exponent base modulus
              end
          end
      end
  | _ => Raise ValueError
  end.



(** The gate of the order-finding circuit, with its exponent register. *)
Definition of_ModularExp (g : ModularExp.t) : gate :=
  mk (ModularExp.target g) (Qubits (ModularExp.exponent g))
     (ModularExp.base g) (ModularExp.modulus g).


End Registers.

(* ================================================================= *)
(** ** Vocabulary of the continued-fraction argument *)

(** [p0/q0] and [p1/q1] are consecutive convergents of [N/D], and [n/d] is
    the tail of its expansion. *)
Definition cf_conv (N p0 q0 p1 q1 n d : Z) : Prop :=
  n * p1 + d * p0 = N /\
  (p1 * q0 - p0 * q1 = 1 \/ p1 * q0 - p0 * q1 = -1).

(** [s/r] is within [1/(2 M^2)] of [N/D]. *)
Definition near (N D s r M : Z) : Prop :=
  2 * M * M * Z.abs (r * N - s * D) < D * r.

(** Case analysis on every conditional of the goal. *)
Ltac split_ifs :=
  repeat match goal with
         | |- context [if ?b then _ else _] => destruct b
         end.

(* ================================================================= *)
(** ** ModularExp.apply *)

Section ModularArithmetic.

Variables m a : Z.
Hypothesis m_pos : 0 < m.
Hypothesis a_coprime : Z.coprime a m.

Lemma mod_mul_cancel (t1 t2 : Z) :
  (t1 * a) mod m = (t2 * a) mod m -> t1 mod m = t2 mod m.
Proof.
  intros Heq.
  apply Z.cong_iff_0 in Heq. apply Z.cong_iff_0.
  apply Z.mod_divide in Heq; [|lia]. apply Z.mod_divide; [lia|].
  apply Z.gauss with (m := a).
  - replace (a * (t1 - t2)) with (t1 * a - t2 * a) by ring. exact Heq.
  - rewrite Z.gcd_comm. exact a_coprime.
Qed.

Lemma mod_mul_solve (y : Z) :
  exists t, 0 <= t < m /\ (t * a) mod m = y mod m.
Proof.
  destruct (Z.Bezout_coprime _ _ a_coprime) as (u & v & Huv).
  exists ((y * u) mod m). split.
  - apply Z.mod_pos_bound; exact m_pos.
  - rewrite Z.mul_mod_idemp_l by lia.
    replace (y * u * a) with (y * (u * a + v * m) + (- (y * v)) * m) by ring.
    rewrite Huv, Z.mul_1_r. apply Z_mod_plus_full.
Qed.

End ModularArithmetic.

Lemma apply_outside (t e b m : Z) :
  m <= t -> ModularExp.apply t e b m = t.
Proof.
  intros H. unfold ModularExp.apply.
  destruct (Z.geb_spec t m); [reflexivity | lia].
Qed.

Lemma apply_inside (t e b m : Z) :
  t < m -> ModularExp.apply t e b m = (t * b ^ e) mod m.
Proof.
  intros H. unfold ModularExp.apply.
  destruct (Z.geb_spec t m); [lia | reflexivity].
Qed.

(** C2: for non-negative register values and a modulus of at least 1,
    [apply] is the identity on targets at or above the modulus and
    multiplication by [base ** exponent] modulo the modulus below it;
    [apply(5, 3, 2, 7) = 5] and [apply(9, 1, 2, 7) = 9]. *)
Theorem apply_spec (target_value exponent_value base modulus : Z) :
  0 <= target_value -> 0 <= exponent_value -> 0 <= base -> 1 <= modulus ->
  (target_value >= modulus ->
     ModularExp.apply target_value exponent_value base modulus = target_value) /\
  (target_value < modulus ->
     ModularExp.apply target_value exponent_value base modulus
     = (target_value * base ^ exponent_value) mod modulus) /\
  ModularExp.apply 5 3 2 7 = 5 /\
  ModularExp.apply 9 1 2 7 = 9.
Proof.
  intros _ _ _ _. repeat split.
  - intros H. apply apply_outside. lia.
  - apply apply_inside.
Qed.

Lemma apply_spec_witness :
  (3 >= 7 -> ModularExp.apply 3 4 5 7 = 3) /\
  (3 < 7 -> ModularExp.apply 3 4 5 7 = (3 * 5 ^ 4) mod 7) /\
  ModularExp.apply 5 3 2 7 = 5 /\
  ModularExp.apply 9 1 2 7 = 9.
Proof.
  apply (apply_spec 3 4 5 7); lia.
Defined.

(** C10: with the base coprime to the modulus, [apply] with a fixed
    exponent is injective on the non-negative integers: it maps the
    residues below the modulus onto themselves, one to one, and fixes
    every target at or above the modulus. *)
Theorem apply_permutes (exponent base modulus : Z) :
  1 <= modulus -> Z.gcd base modulus = 1 -> 0 <= exponent ->
  let V := fun target => ModularExp.apply target exponent base modulus in
  (forall t1 t2, 0 <= t1 -> 0 <= t2 -> V t1 = V t2 -> t1 = t2) /\
  (forall t, 0 <= t < modulus -> 0 <= V t < modulus) /\
  (forall y, 0 <= y < modulus -> exists t, 0 <= t < modulus /\ V t = y) /\
  (forall t, modulus <= t -> V t = t).
Proof.
  intros Hm Hgcd He V.
  assert (Hco : Z.coprime (base ^ exponent) modulus).
  { apply Z.coprime_pow_l; assumption. }
  assert (Hin : forall t, 0 <= t < modulus -> 0 <= V t < modulus).
  { intros t Ht. unfold V. rewrite apply_inside by lia.
    apply Z.mod_pos_bound. lia. }
  assert (Hout : forall t, modulus <= t -> V t = t).
  { intros t Ht. apply apply_outside. exact Ht. }
  repeat split; try (apply Hin; assumption); try assumption.
  - intros t1 t2 H1 H2 Heq.
    destruct (Z.lt_ge_cases t1 modulus) as [L1 | G1];
      destruct (Z.lt_ge_cases t2 modulus) as [L2 | G2].
    + unfold V in Heq. rewrite !apply_inside in Heq by lia.
      apply (mod_mul_cancel modulus (base ^ exponent)) in Heq; [| lia | exact Hco].
      rewrite !Z.mod_small in Heq by lia. exact Heq.
    + specialize (Hin t1 (conj H1 L1)). rewrite Heq, (Hout t2 G2) in Hin. lia.
    + specialize (Hin t2 (conj H2 L2)). rewrite <- Heq, (Hout t1 G1) in Hin. lia.
    + rewrite (Hout t1 G1), (Hout t2 G2) in Heq. exact Heq.
  - intros y Hy.
    destruct (mod_mul_solve modulus (base ^ exponent) ltac:(lia) Hco y)
      as (t & Ht & Hty).
    exists t. split; [exact Ht |].
    unfold V. rewrite apply_inside by lia.
    rewrite Hty. apply Z.mod_small. exact Hy.
Qed.

Lemma apply_permutes_witness :
  let V := fun target => ModularExp.apply target 3 2 7 in
  (forall t1 t2, 0 <= t1 -> 0 <= t2 -> V t1 = V t2 -> t1 = t2) /\
  (forall t, 0 <= t < 7 -> 0 <= V t < 7) /\
  (forall y, 0 <= y < 7 -> exists t, 0 <= t < 7 /\ V t = y) /\
  (forall t, 7 <= t -> V t = t).
Proof.
  apply (apply_permutes 3 2 7); [lia | reflexivity | lia].
Defined.

(* ================================================================= *)
(** ** The classical order finder *)

Lemma range_In (a b v : Z) : In v (range a b) <-> a <= v < b.
Proof.
  unfold range. rewrite in_map_iff. split.
  - intros (i & <- & Hi). apply in_seq in Hi. lia.
  - intros Hv. exists (Z.to_nat (v - a)). split; [lia |].
    apply in_seq. lia.
Qed.

Lemma range_length (a b : Z) : length (range a b) = Z.to_nat (b - a).
Proof. unfold range. now rewrite length_map, length_seq. Qed.

(** Among the values of [f] on a segment of indices, two coincide or all differ. *)
Lemma segment_dup_or_NoDup (f : nat -> Z) (len a : nat) :
  NoDup (map f (seq a len)) \/
  exists i j, (a <= i < j)%nat /\ (j < a + len)%nat /\ f i = f j.
Proof.
  revert a. induction len as [| len IH]; intros a; simpl.
  - left. constructor.
  - destruct (IH (S a)) as [Hnd | (i & j & Hij & Hj & Heq)].
    + destruct (in_dec Z.eq_dec (f a) (map f (seq (S a) len))) as [Hin | Hnin].
      * right. apply in_map_iff in Hin. destruct Hin as (j & Hfj & Hj).
        apply in_seq in Hj. exists a, j. repeat split; lia.
      * left. now constructor.
    + right. exists i, j. repeat split; lia.
Qed.

Lemma pigeonhole (f : nat -> Z) (n : nat) :
  (forall i, (i <= n)%nat -> 0 <= f i < Z.of_nat n) ->
  exists i j, (i < j <= n)%nat /\ f i = f j.
Proof.
  intros Hf.
  destruct (segment_dup_or_NoDup f (S n) 0) as [Hnd | (i & j & Hij & Hj & Heq)].
  - exfalso.
    assert (Hincl : incl (map f (seq 0 (S n))) (range 0 (Z.of_nat n))).
    { intros v Hv. apply in_map_iff in Hv. destruct Hv as (i & <- & Hi).
      apply in_seq in Hi. apply range_In. apply Hf. lia. }
    pose proof (NoDup_incl_length Hnd Hincl) as Hlen.
    rewrite length_map, length_seq, range_length in Hlen. lia.
  - exists i, j. split; [lia | exact Heq].
Qed.

Section Order.
Variables x n : Z.
Hypothesis n_gt_1 : 1 < n.
Hypothesis x_coprime : Z.gcd x n = 1.

Lemma pow_mod_succ (r : Z) :
  0 <= r -> (x * (x ^ r mod n)) mod n = x ^ (r + 1) mod n.
Proof.
  intros Hr. rewrite Z.mul_mod_idemp_r by lia.
  rewrite Z.pow_add_r, Z.pow_1_r by lia. f_equal. ring.
Qed.

Lemma pow_mod_cancel (i j : Z) :
  0 <= i <= j -> x ^ i mod n = x ^ j mod n -> x ^ (j - i) mod n = 1.
Proof.
  intros Hij Heq.
  replace j with ((j - i) + i) in Heq at 1 by ring.
  rewrite Z.pow_add_r in Heq by lia.
  rewrite <- (Z.mul_1_l (x ^ i)) in Heq at 1.
  symmetry in Heq.
  apply (mod_mul_cancel n (x ^ i)) in Heq.
  - rewrite Heq. apply Z.mod_small. lia.
  - lia.
  - apply Z.coprime_pow_l; [lia | exact x_coprime].
Qed.

Lemma power_returns_to_one : exists R, 0 < R <= n /\ x ^ R mod n = 1.
Proof.
  destruct (pigeonhole (fun i => x ^ Z.of_nat i mod n) (Z.to_nat n))
    as (i & j & Hij & Heq).
  - intros i _. rewrite Z2Nat.id by lia. apply Z.mod_pos_bound. lia.
  - exists (Z.of_nat j - Z.of_nat i). split; [lia |].
    apply pow_mod_cancel; [lia | exact Heq].
Qed.
End Order.

Lemma invalid_argument_spec (x n : Z) :
  invalid_argument x n = true <-> (x < 2 \/ n <= x \/ Z.gcd x n > 1).
Proof.
  unfold invalid_argument. rewrite !orb_true_iff, Z.ltb_lt, Z.leb_le, Z.gtb_gt.
  tauto.
Qed.

Lemma valid_argument (x n : Z) :
  2 <= x < n -> Z.gcd x n = 1 -> invalid_argument x n = false.
Proof.
  intros Hx Hg. apply not_true_is_false. rewrite invalid_argument_spec. lia.
Qed.

Lemma is_order_unique (x n r1 r2 : Z) :
  is_order x n r1 -> is_order x n r2 -> r1 = r2.
Proof.
  intros (P1 & E1 & M1) (P2 & E2 & M2).
  destruct (Z.lt_trichotomy r1 r2) as [H | [H | H]]; [| exact H |].
  - exfalso. apply (M2 r1); [lia | exact E1].
  - exfalso. apply (M1 r2); [lia | exact E2].
Qed.

Section NaiveLoop.
Variables x n : Z.
Hypothesis n_gt_1 : 1 < n.

Lemma naive_loop_sound (fuel : nat) : forall r y v,
  0 < r -> y = x ^ r mod n ->
  (forall r', 0 < r' < r -> x ^ r' mod n <> 1) ->
  naive_loop fuel x n r y = Return v -> is_order x n v.
Proof.
  induction fuel as [| fuel IH]; intros r y v Hr Hy Hmin Hrun; simpl in Hrun.
  - discriminate.
  - destruct (Z.eqb_spec y 1) as [Hy1 | Hy1]; simpl in Hrun.
    + injection Hrun as <-. repeat split; [lia | congruence | exact Hmin].
    + apply (IH (r + 1) _ v) in Hrun; [exact Hrun | lia | |].
      * subst y. apply pow_mod_succ; lia.
      * intros r' Hr'. destruct (Z.eq_dec r' r) as [-> | Hne].
        -- congruence.
        -- apply Hmin. lia.
Qed.

Lemma naive_loop_returns (R : Z) (HR : x ^ R mod n = 1) (fuel : nat) :
  forall r y, 0 < r <= R -> y = x ^ r mod n ->
    (Z.to_nat (R - r) < fuel)%nat ->
    exists v, naive_loop fuel x n r y = Return v.
Proof.
  induction fuel as [| fuel IH]; intros r y Hr Hy Hfuel; [lia |]. simpl.
  destruct (Z.eqb_spec y 1) as [Hy1 | Hy1]; simpl.
  - now exists r.
  - assert (r <> R) by congruence.
    apply IH; [lia | | lia].
    subst y. apply pow_mod_succ; lia.
Qed.
End NaiveLoop.

(** C7: for [2 <= x < n] coprime to [n], the value returned by
    [naive_order_finder] is the multiplicative order of [x] modulo [n]:
    [x ** r % n == 1] and no smaller positive exponent does that. *)
Theorem naive_order_finder_is_order (fuel : nat) (x n r : Z) :
  2 <= x < n -> Z.gcd x n = 1 ->
  naive_order_finder fuel x n = Return (Some r) ->
  x ^ r mod n = 1 /\ 0 < r /\ forall r', 0 < r' < r -> x ^ r' mod n <> 1.
Proof.
  intros Hx Hg. unfold naive_order_finder. rewrite valid_argument by assumption.
  destruct (naive_loop fuel x n 1 x) as [v | e] eqn:Hloop; simpl; [| discriminate].
  intros [= <-].
  apply naive_loop_sound in Hloop; try lia.
  - destruct Hloop as (P & E & M). auto.
  - rewrite Z.pow_1_r. symmetry. apply Z.mod_small. lia.
Qed.

Lemma naive_order_finder_is_order_witness :
  10 ^ 2 mod 33 = 1 /\ 0 < 2 /\ forall r', 0 < r' < 2 -> 10 ^ r' mod 33 <> 1.
Proof.
  apply (naive_order_finder_is_order 5 10 33 2); [lia | reflexivity | reflexivity].
Defined.

(** C9: for [2 <= x < n] coprime to [n], the loop of [naive_order_finder]
    terminates: it reaches [y == 1] within [n] tests of its condition, and
    returns the same value for every larger iteration budget. *)
Theorem naive_order_finder_terminates (x n : Z) :
  2 <= x < n -> Z.gcd x n = 1 ->
  exists r, forall fuel, (Z.to_nat n <= fuel)%nat ->
    naive_order_finder fuel x n = Return (Some r).
Proof.
  intros Hx Hg.
  destruct (power_returns_to_one x n ltac:(lia) Hg) as (R & HR & HR1).
  assert (Hinit : x = x ^ 1 mod n).
  { rewrite Z.pow_1_r. symmetry. apply Z.mod_small. lia. }
  assert (Hrun : forall fuel, (Z.to_nat n <= fuel)%nat ->
            exists v, naive_loop fuel x n 1 x = Return v).
  { intros fuel Hfuel. apply (naive_loop_returns x n ltac:(lia) R HR1); [lia | exact Hinit | lia]. }
  destruct (Hrun (Z.to_nat n) (Nat.le_refl _)) as (r & Hr).
  exists r. intros fuel Hfuel.
  destruct (Hrun fuel Hfuel) as (v & Hv).
  unfold naive_order_finder. rewrite valid_argument by assumption.
  rewrite Hv. simpl. do 2 f_equal.
  apply (is_order_unique x n).
  - apply (naive_loop_sound x n ltac:(lia) fuel 1 x); try assumption; lia.
  - apply (naive_loop_sound x n ltac:(lia) (Z.to_nat n) 1 x); try assumption; lia.
Qed.

Lemma naive_order_finder_terminates_witness :
  exists r, forall fuel, (Z.to_nat 33 <= fuel)%nat ->
    naive_order_finder fuel 10 33 = Return (Some r).
Proof.
  apply (naive_order_finder_terminates 10 33); [lia | reflexivity].
Defined.

(* ================================================================= *)
(** ** The phase decoder *)

Lemma Fraction_returns (n d : Z) : d <> 0 -> exists f, Fraction n d = Return f.
Proof.
  intros Hd. unfold Fraction. destruct (Z.eqb_spec d 0); [contradiction | eauto].
Qed.

Section LimitDenominator.
Variables M D : Z.
Hypothesis M_pos : 1 <= M.
Hypothesis D_large : M < D.

Lemma cf_inv_d_nonzero q0 q1 n d : cf_inv M D q0 q1 n d -> d <> 0.
Proof.
  intros (H0 & H1 & Hd & Hlin & Hg) ->.
  rewrite Z.gcd_0_r_nonneg in Hg by lia. subst n. lia.
Qed.

Lemma cf_inv_step q0 q1 n d :
  cf_inv M D q0 q1 n d -> q0 + n / d * q1 <= M ->
  cf_inv M D q1 (q0 + n / d * q1) d (n - n / d * d).
Proof.
  intros Hinv Hle. pose proof (cf_inv_d_nonzero _ _ _ _ Hinv) as Hd0.
  destruct Hinv as (H0 & H1 & Hd & Hlin & Hg).
  assert (Hmod : n - n / d * d = n mod d) by (rewrite Z.mod_eq by lia; ring).
  assert (Ha : 1 <= n / d) by (apply Z.div_le_lower_bound; lia).
  pose proof (Z.mod_pos_bound n d ltac:(lia)) as Hb.
  repeat split; try lia; try nia.
  replace (n - n / d * d) with (n + (- (n / d)) * d) by ring.
  rewrite Z.gcd_add_mult_diag_r, Z.gcd_comm. exact Hg.
Qed.

Lemma mod_halves n d : 0 < d < n -> 2 * (n mod d) < n.
Proof.
  intros H. pose proof (Z.mod_pos_bound n d ltac:(lia)) as Hb.
  assert (1 <= n / d) by (apply Z.div_le_lower_bound; lia).
  pose proof (Z.div_mod n d ltac:(lia)). nia.
Qed.

Lemma loop_returns (k : nat) : forall fuel p0 q0 p1 q1 n d,
  (2 * k <= fuel)%nat -> cf_inv M D q0 q1 n d -> n < 2 ^ Z.of_nat k ->
  exists p0' q0' p1' q1',
    limit_denominator_loop fuel M p0 q0 p1 q1 n d = Return (p0', q0', p1', q1')
    /\ 0 <= q0' <= M /\ 1 <= q1' <= M.
Proof.
  induction k as [| k IH]; intros fuel p0 q0 p1 q1 n d Hfuel Hinv Hn.
  - destruct Hinv as (_ & _ & Hd & _). simpl in Hn. lia.
  - destruct fuel as [| [| fuel]]; try lia.
    pose proof (cf_inv_d_nonzero _ _ _ _ Hinv) as Hd0.
    cbn [limit_denominator_loop].
    destruct (Z.eqb_spec d 0); [contradiction |].
    destruct (Z.gtb_spec (q0 + n / d * q1) M) as [Hbrk | Hgo].
    { exists p0, q0, p1, q1. destruct Hinv as (? & ? & _). auto. }
    pose proof (cf_inv_step _ _ _ _ Hinv Hgo) as Hinv1.
    pose proof (cf_inv_d_nonzero _ _ _ _ Hinv1) as Hd1.
    set (d1 := n - n / d * d) in *.
    destruct (Z.eqb_spec d1 0); [contradiction |].
    destruct (Z.gtb_spec (q1 + d / d1 * (q0 + n / d * q1)) M) as [Hbrk | Hgo1].
    { eexists _, _, _, _. split; [reflexivity |]. destruct Hinv1 as (? & ? & _). auto. }
    pose proof (cf_inv_step _ _ _ _ Hinv1 Hgo1) as Hinv2.
    apply IH; [lia | exact Hinv2 |].
    assert (Hd1eq : d1 = n mod d) by (unfold d1; rewrite Z.mod_eq by lia; ring).
    destruct Hinv as (_ & _ & Hd & _).
    pose proof (mod_halves n d ltac:(lia)).
    rewrite Nat2Z.inj_succ, Z.pow_succ_r in Hn by lia. lia.
Qed.
End LimitDenominator.

Lemma limit_denominator_returns (self : Q) (M : Z) :
  1 <= M -> Z.gcd (numerator self) (denominator self) = 1 ->
  exists f, limit_denominator self M = Return f.
Proof.
  intros HM Hg. unfold limit_denominator.
  destruct (Z.ltb_spec M 1); [lia |].
  destruct (Z.leb_spec (denominator self) M) as [Hsmall | Hlarge]; [eauto |].
  set (N := numerator self) in *. set (D := denominator self) in *.
  assert (HD : 0 < D) by lia.
  unfold cf_fuel. cbn [limit_denominator_loop].
  destruct (Z.eqb_spec D 0); [lia |].
  replace (1 + N / D * 0) with 1 by ring.
  destruct (Z.gtb_spec 1 M); [lia |].
  destruct (loop_returns M D Hlarge (S (Z.to_nat (Z.log2 D)))
              (2 * S (Z.to_nat (Z.log2 D))) 1 0 (0 + N / D * 1) 1 D (N - N / D * D))
    as (p0 & q0 & p1 & q1 & Hrun & Hq0 & Hq1).
  - lia.
  - pose proof (Z.mod_pos_bound N D HD) as Hb.
    assert (Hmod : N - N / D * D = N mod D) by (rewrite Z.mod_eq by lia; ring).
    repeat split; try lia.
    replace (N - N / D * D) with (N + (- (N / D)) * D) by ring.
    rewrite Z.gcd_add_mult_diag_r, Z.gcd_comm. exact Hg.
  - rewrite Nat2Z.inj_succ, Z2Nat.id by apply Z.log2_nonneg.
    apply Z.log2_spec. exact HD.
  - rewrite Hrun. cbn [bind].
    destruct (Z.eqb_spec q1 0); [lia |].
    set (k := (M - q0) / q1).
    assert (Hk : k * q1 <= M - q0 < (k + 1) * q1).
    { unfold k. pose proof (Z.div_mod (M - q0) q1 ltac:(lia)).
      pose proof (Z.mod_pos_bound (M - q0) q1 ltac:(lia)). nia. }
    destruct (Fraction_returns (p0 + k * p1) (q0 + k * q1)) as (b1 & ->); [nia |].
    destruct (Fraction_returns p1 q1) as (b2 & ->); [lia |].
    cbn [bind]. destruct (Qle_bool _ _); eauto.
Qed.

Lemma bit_length_pos (m : Z) : 0 < m -> bit_length m = Z.log2 m + 1.
Proof.
  intros H. unfold bit_length. destruct (Z.eqb_spec m 0); [lia |].
  now rewrite Z.abs_eq by lia.
Qed.

Lemma round_half_even_le (m shift : Z) :
  0 <= m -> 0 <= shift -> round_half_even m shift * 2 ^ shift <= m + 2 ^ shift.
Proof.
  intros Hm Hs. unfold round_half_even.
  assert (Hp : 0 < 2 ^ shift) by (apply Z.pow_pos_nonneg; lia).
  pose proof (Z.div_mod m (2 ^ shift) ltac:(lia)) as Hdm.
  pose proof (Z.mod_pos_bound m (2 ^ shift) Hp) as Hb.
  destruct (Z.leb_spec shift 0).
  - replace shift with 0 by lia. simpl. lia.
  - split_ifs; nia.
Qed.

Lemma true_divide_pow2_returns (m b : Z) :
  0 <= m < 2 ^ b -> 0 <= b -> exists e, true_divide_pow2 m b = Return e.
Proof.
  intros Hm Hb. unfold true_divide_pow2.
  destruct (Z.eqb_spec m 0); [eauto |].
  set (shift := Z.max 0 _).
  assert (Hshift : 0 <= shift <= b).
  { unfold shift. rewrite bit_length_pos by lia.
    assert (Z.log2 m < b) by (apply Z.log2_lt_pow2; lia). lia. }
  pose proof (round_half_even_le m shift ltac:(lia) ltac:(lia)) as Hr.
  assert (2 ^ shift <= 2 ^ b) by (apply Z.pow_le_mono_r; lia).
  assert (2 ^ (b + 1) <= 2 ^ (1024 + b)) by (apply Z.pow_le_mono_r; lia).
  assert (2 ^ (b + 1) = 2 * 2 ^ b) by (rewrite Z.pow_add_r, Z.pow_1_r by lia; ring).
  destruct (Z.leb_spec (2 ^ (1024 + b)) (round_half_even m shift * 2 ^ shift));
    [lia | eauto].
Qed.

Lemma true_divide_pow2_raises (m b : Z) (e : exn) :
  true_divide_pow2 m b = Raise e -> e = OverflowError.
Proof.
  unfold true_divide_pow2.
  split_ifs; congruence.
Qed.

Lemma eigenphase_of_returns (result : Result) :
  well_formed result -> exists e, eigenphase_of result = Return e.
Proof.
  intros Hwf. apply true_divide_pow2_returns; [| lia].
  unfold well_formed in Hwf. split; [lia |].
  change 2 with (Z.of_N 2). rewrite <- N2Z.inj_pow. lia.
Qed.

(** The body of [process_measurement] after the approximation [f] is known. *)
Lemma process_measurement_cases (result : Result) (x n : Z) :
  1 <= n ->
  (exists e, eigenphase_of result = Raise e /\ e = OverflowError /\
             process_measurement result x n = Raise e) \/
  (exists e f, eigenphase_of result = Return e /\
     limit_denominator (from_float e) n = Return f /\
     process_measurement result x n =
       if numerator f =? 0 then Return None
       else if negb (x ^ denominator f mod n =? 1) then Return None
       else Return (Some (denominator f))).
Proof.
  intros Hn. unfold process_measurement.
  destruct (eigenphase_of result) as [e | e] eqn:He.
  - right. destruct (limit_denominator_returns (from_float e) n Hn) as (f & Hf).
    { apply gcd_Qred. }
    exists e, f. cbn [bind]. rewrite Hf. cbn [bind]. auto.
  - left. exists e. repeat split. eapply true_divide_pow2_raises. exact He.
Qed.

(** C6: for a modulus of at least 1 and a measurement that fits its
    register, [process_measurement] returns [None] exactly when the
    approximation [f] of the eigenphase with denominator limited to [n] has
    numerator 0 or its denominator fails [x ** r % n == 1]; otherwise it
    returns that denominator.  An eigenphase of 0 decodes to [None]. *)
Theorem process_measurement_none_iff (result : Result) (x n : Z) :
  1 <= n -> well_formed result ->
  exists e f,
    eigenphase_of result = Return e /\
    limit_denominator (from_float e) n = Return f /\
    (process_measurement result x n = Return None <->
       numerator f = 0 \/ x ^ denominator f mod n <> 1) /\
    (~ (numerator f = 0 \/ x ^ denominator f mod n <> 1) ->
       process_measurement result x n = Return (Some (denominator f))) /\
    ((e == 0)%Q -> process_measurement result x n = Return None).
Proof.
  intros Hn Hwf.
  destruct (process_measurement_cases result x n Hn)
    as [(e & He & _ & _) | (e & f & He & Hf & Hpm)].
  { destruct (eigenphase_of_returns result Hwf) as (e' & He'). congruence. }
  exists e, f. split; [exact He |]. split; [exact Hf |].
  assert (Hzero : (e == 0)%Q -> numerator f = 0).
  { intros He0. apply Qred_complete in He0.
    unfold from_float in Hf. rewrite He0 in Hf.
    change (Qred 0) with (0 # 1) in Hf. unfold limit_denominator in Hf.
    change (denominator (0 # 1)) with 1 in Hf.
    destruct (Z.ltb_spec n 1); [lia |].
    destruct (Z.leb_spec 1 n); [| lia].
    now injection Hf as <-. }
  rewrite Hpm.
  destruct (Z.eqb_spec (numerator f) 0) as [Hz | Hnz];
    [| destruct (Z.eqb_spec (x ^ denominator f mod n) 1) as [Hv | Hv]]; cbn [negb].
  - split; [tauto |]. split; [tauto | reflexivity].
  - split; [| split].
    + split; [discriminate | intros [? | ?]; contradiction].
    + reflexivity.
    + intros He0. apply Hzero in He0. contradiction.
  - split; [tauto |]. split; [tauto | reflexivity].
Qed.

Lemma process_measurement_none_iff_witness :
  exists e f,
    eigenphase_of (mkResult 1365 13) = Return e /\
    limit_denominator (from_float e) 21 = Return f /\
    (process_measurement (mkResult 1365 13) 4 21 = Return None <->
       numerator f = 0 \/ 4 ^ denominator f mod 21 <> 1) /\
    (~ (numerator f = 0 \/ 4 ^ denominator f mod 21 <> 1) ->
       process_measurement (mkResult 1365 13) 4 21 = Return (Some (denominator f))) /\
    ((e == 0)%Q -> process_measurement (mkResult 1365 13) 4 21 = Return None).
Proof.
  apply (process_measurement_none_iff (mkResult 1365 13) 4 21); [lia | reflexivity].
Defined.

(** C3 (amended): if the eigenphase equals [s / r] exactly, with [s] and
    [r] coprime and between 1 and [n], and [r] passes the verification
    [x ** r % n == 1], then [process_measurement] returns [r]. *)
Theorem process_measurement_exact_phase
    (result : Result) (x n s r : Z) (e : float) :
  1 <= s <= n -> 1 <= r <= n -> Z.gcd s r = 1 ->
  eigenphase_of result = Return e ->
  (e == inject_Z s / inject_Z r)%Q ->
  x ^ r mod n = 1 ->
  process_measurement result x n = Return (Some r).
Proof.
  intros Hs Hr Hg He Heq Hx.
  assert (Hf : from_float e = s # Z.to_pos r).
  { unfold from_float. rewrite <- (Qcanon.Qred_identity (s # Z.to_pos r)).
    - apply Qred_complete. rewrite Heq, Qmake_Qdiv.
      now rewrite Z2Pos.id by lia.
    - cbn [Qnum Qden]. now rewrite Z2Pos.id by lia. }
  unfold process_measurement. rewrite He. cbn [bind]. rewrite Hf.
  unfold limit_denominator, denominator, numerator. cbn [Qnum Qden].
  rewrite Z2Pos.id by lia.
  destruct (Z.ltb_spec n 1); [lia |].
  destruct (Z.leb_spec r n); [| lia].
  cbn [bind Qnum Qden]. rewrite Z2Pos.id by lia.
  destruct (Z.eqb_spec s 0); [lia |].
  rewrite Hx. reflexivity.
Qed.

Lemma process_measurement_exact_phase_witness :
  process_measurement (mkResult 4096 13) 8 21 = Return (Some 2).
Proof.
  apply (process_measurement_exact_phase (mkResult 4096 13) 8 21 1 2 (4096 # 8192));
    try lia; reflexivity.
Defined.

(** C3, counterexample without the verification hypothesis: the
    eigenphase of the measurement 1 on one bit is exactly 1/2, but
    [2 ** 2 % 15 = 4], and the decoder returns [None] for base 2 and
    modulus 15. *)
Lemma process_measurement_unverified :
  Z.gcd 1 2 = 1 /\ 1 <= 1 <= 15 /\ 1 <= 2 <= 15 /\
  eigenphase_of (mkResult 1 1) = Return (1 # 2) /\
  (1 # 2 == inject_Z 1 / inject_Z 2)%Q /\
  process_measurement (mkResult 1 1) 2 15 <> Return (Some 2).
Proof.
  repeat split; try lia; try reflexivity. discriminate.
Qed.

(* ================================================================= *)
(** ** The guard of the order finders *)

Lemma naive_loop_raises (fuel : nat) : forall x n r y e,
  naive_loop fuel x n r y = Raise e -> e = OutOfFuel.
Proof.
  induction fuel as [| fuel IH]; intros x n r y e; simpl.
  - congruence.
  - destruct (negb (y =? 1)); [apply IH | discriminate].
Qed.

Lemma make_order_finding_circuit_returns (x n : Z) :
  n <> 0 -> exists c, make_order_finding_circuit x n = Return c.
Proof.
  intros Hn. unfold make_order_finding_circuit, ModularExp.init.
  assert (0 < bit_length n).
  { unfold bit_length. destruct (Z.eqb_spec n 0); [contradiction |].
    pose proof (Z.log2_nonneg (Z.abs n)). lia. }
  destruct (Z.eqb_spec (bit_length n) 0); [lia |].
  rewrite repeat_length, range_length.
  destruct (Z.ltb_spec (Z.of_nat (Z.to_nat (bit_length n - 0))) (bit_length n)); [lia |].
  cbn [bind]. eauto.
Qed.

(** C8: both order finders raise [ValueError] exactly when [x < 2], or
    [n <= x], or [gcd(x, n) > 1]. *)
Theorem order_finders_reject_iff
    (fuel : nat) (sample : Circuit -> Result) (x n : Z) :
  (naive_order_finder fuel x n = Raise ValueError
     <-> x < 2 \/ n <= x \/ Z.gcd x n > 1) /\
  (quantum_order_finder sample x n = Raise ValueError
     <-> x < 2 \/ n <= x \/ Z.gcd x n > 1).
Proof.
  rewrite <- invalid_argument_spec.
  unfold naive_order_finder, quantum_order_finder.
  destruct (invalid_argument x n) eqn:Hinv.
  - split; split; reflexivity.
  - assert (Hrange : ~ (x < 2 \/ n <= x \/ Z.gcd x n > 1)).
    { rewrite <- invalid_argument_spec. congruence. }
    split; (split; [| discriminate]); intros Hraise; exfalso.
    + destruct (naive_loop fuel x n 1 x) as [r | e] eqn:Hloop; [discriminate |].
      apply naive_loop_raises in Hloop. cbn [bind] in Hraise. congruence.
    + destruct (make_order_finding_circuit_returns x n ltac:(lia)) as (c & Hc).
      rewrite Hc in Hraise. cbn [bind] in Hraise.
      destruct (process_measurement_cases (sample c) x n ltac:(lia))
        as [(e & _ & He & Hpm) | (e & f & _ & _ & Hpm)];
        rewrite Hpm in Hraise.
      * congruence.
      * repeat match type of Hraise with
               | context [if ?b then _ else _] => destruct b
               end; discriminate.
Qed.

(* ================================================================= *)
(** ** Prime powers *)

Lemma pow_ge_base (a k : Z) : 1 <= a -> 1 <= k -> a <= a ^ k.
Proof.
  intros Ha Hk. rewrite <- (Z.pow_1_r a) at 1. apply Z.pow_le_mono_r; lia.
Qed.

Lemma iroot_scan_spec (n k : Z) (fuel : nat) : forall c,
  1 <= k -> 0 <= c -> c ^ k <= n -> n - c <= Z.of_nat fuel ->
  let r := iroot_scan fuel n k c in
  c <= r /\ r ^ k <= n < (r + 1) ^ k.
Proof.
  induction fuel as [| fuel IH]; intros c Hk Hc Hle Hfuel; cbn [iroot_scan].
  - pose proof (pow_ge_base (c + 1) k ltac:(lia) Hk). lia.
  - destruct (Z.leb_spec ((c + 1) ^ k) n) as [Hgo | Hstop].
    + pose proof (pow_ge_base (c + 1) k ltac:(lia) Hk).
      specialize (IH (c + 1) Hk ltac:(lia) Hgo ltac:(lia)). cbn zeta in IH. lia.
    + lia.
Qed.

Lemma iroot_spec (n k : Z) :
  0 <= n -> 1 <= k -> 0 <= iroot n k /\ iroot n k ^ k <= n < (iroot n k + 1) ^ k.
Proof.
  intros Hn Hk. unfold iroot.
  apply (iroot_scan_spec n k (Z.to_nat n) 0); try lia.
  rewrite Z.pow_0_l by lia. exact Hn.
Qed.

Lemma iroot_exact (n k root : Z) :
  1 <= k -> 0 <= root -> root ^ k = n -> iroot n k = root.
Proof.
  intros Hk Hroot Hpow.
  assert (Hn : 0 <= n) by (subst n; apply Z.pow_nonneg; lia).
  destruct (iroot_spec n k Hn Hk) as (H0 & Hlo & Hhi). subst n.
  apply Z.pow_le_mono_l_iff in Hlo; try lia.
  apply Z.pow_lt_mono_l_iff in Hhi; lia.
Qed.

Lemma iroot_scan_ge (n k : Z) (fuel : nat) : forall c, c <= iroot_scan fuel n k c.
Proof.
  induction fuel as [| fuel IH]; intros c; cbn [iroot_scan]; [lia |].
  destruct ((c + 1) ^ k <=? n); [| lia].
  specialize (IH (c + 1)). lia.
Qed.

Lemma reference_float_nonneg : float_nonneg reference_float_ops.
Proof.
  intros n k c. cbn [pow_inv reference_float_ops].
  pose proof (iroot_scan_ge n k (Z.to_nat n) 0) as H0. fold (iroot n k) in H0.
  assert (Hq : (0 <= inject_Z (iroot n k))%Q).
  { change 0%Q with (inject_Z 0). now rewrite <- Zle_Qle. }
  split_ifs; intros [= <-]; [exact Hq |].
  apply Qle_trans with (1 := Hq).
  rewrite <- (Qplus_0_r (inject_Z (iroot n k))) at 1.
  apply Qplus_le_r. discriminate.
Qed.

Lemma reference_float_accurate (n : Z) :
  1 <= n -> float_accurate reference_float_ops n.
Proof.
  intros Hn. split.
  - exists (inject_Z (Z.log2 n)). cbn [log2 reference_float_ops].
    destruct (Z.leb_spec n 0); [lia |]. split; [reflexivity | apply Qfloor_Z].
  - intros k Hk. cbn [pow_inv reference_float_ops].
    destruct (Z.eqb_spec k 0); [lia |].
    destruct (Z.ltb_spec n 0); [lia |].
    destruct (Z.eqb_spec (iroot n k ^ k) n) as [Hex | Hnex].
    + eexists. split; [reflexivity |]. intros root Hroot Hpow. left.
      rewrite Qfloor_Z. apply iroot_exact; lia.
    + eexists. split; [reflexivity |]. intros root Hroot Hpow. exfalso.
      apply Hnex. rewrite (iroot_exact n k root); lia.
Qed.

Lemma map_seq_from (len : nat) : forall (f : nat -> Z) (s : nat),
  map f (seq s len) = map (fun i => f (s + i)%nat) (seq 0 len).
Proof.
  induction len as [| len IH]; intros f s; [reflexivity |].
  cbn [seq map]. f_equal; [f_equal; lia |].
  rewrite (IH f (S s)), (IH (fun i => f (s + i)%nat) 1%nat).
  apply map_ext. intros i. f_equal. lia.
Qed.

Lemma range_split (a j b : Z) :
  a <= j < b -> range a b = range a j ++ j :: range (j + 1) b.
Proof.
  intros H. unfold range.
  replace (Z.to_nat (b - a))
    with (Z.to_nat (j - a) + S (Z.to_nat (b - (j + 1))))%nat by lia.
  rewrite seq_app, map_app. f_equal. cbn [seq map]. f_equal; [lia |].
  rewrite map_seq_from. apply map_ext. intros i. lia.
Qed.

Section PrimePowers.
Variable p : Z.
Hypothesis p_prime : Z.prime p.

Lemma prime_power_divisor (k : Z) : 0 <= k -> forall c,
  0 < c -> (c | p ^ k) -> exists i, 0 <= i <= k /\ c = p ^ i.
Proof.
  pose proof (Z.prime_ge_2 p p_prime) as Hp.
  intros Hk. pattern k. apply natlike_ind; [| | exact Hk]; clear k Hk.
  - intros c Hc Hdiv. exists 0. split; [lia |].
    rewrite Z.pow_0_r in *. apply Z.divide_1_r_nonneg in Hdiv; lia.
  - intros k Hk IH c Hc Hdiv. rewrite Z.pow_succ_r in Hdiv by exact Hk.
    destruct (Z.eq_dec (c mod p) 0) as [Hpc | Hnpc].
    + apply Z.mod_divide in Hpc; [| lia]. destruct Hpc as (c' & ->).
      rewrite (Z.mul_comm c' p) in Hdiv.
      apply Z.mul_divide_cancel_l in Hdiv; [| lia].
      destruct (IH c') as (i & Hi & ->); [nia | exact Hdiv |].
      exists (Z.succ i). split; [lia |]. rewrite Z.pow_succ_r by lia. ring.
    + assert (Hco : Z.coprime p c).
      { apply Z.coprime_prime_l; [exact p_prime |].
        intros Hd. apply Hnpc. apply Z.mod_divide; [lia | exact Hd]. }
      apply Z.gauss in Hdiv; [| rewrite Z.gcd_comm; exact Hco].
      destruct (IH c Hc Hdiv) as (i & Hi & ->). exists i. split; [lia | reflexivity].
Qed.

Lemma perfect_power_exponent (k k' c : Z) :
  0 <= k -> 1 <= k' -> c ^ k' = p ^ k -> (k' | k).
Proof.
  pose proof (Z.prime_ge_2 p p_prime) as Hp.
  intros Hk Hk' Hpow.
  assert (Habs : Z.abs c ^ k' = p ^ k).
  { rewrite <- Z.abs_pow, Hpow. apply Z.abs_eq. apply Z.pow_nonneg; lia. }
  assert (Hpos : 0 < p ^ k) by (apply Z.pow_pos_nonneg; lia).
  assert (Hc : 0 < Z.abs c).
  { destruct (Z.eq_dec (Z.abs c) 0) as [E | ?]; [| lia].
    rewrite E, Z.pow_0_l in Habs by lia. lia. }
  destruct (prime_power_divisor k Hk (Z.abs c) Hc) as (i & Hi & Hci).
  { rewrite <- Habs. apply Z.divide_pow_same_r. exact Hk'. }
  rewrite Hci, <- Z.pow_mul_r in Habs by lia.
  apply Z.pow_inj_r in Habs; try lia. exists i. lia.
Qed.
End PrimePowers.

(** Every [k >= 2] has a least divisor that is at least 2. *)
Lemma least_divisor_exists (k : Z) :
  2 <= k ->
  exists j, 2 <= j <= k /\ (j | k) /\ forall j', 2 <= j' < j -> ~ (j' | k).
Proof.
  intros Hk.
  assert (Hscan : forall b : nat,
    (exists j, 2 <= j < 2 + Z.of_nat b /\ (j | k) /\
               forall j', 2 <= j' < j -> ~ (j' | k)) \/
    (forall j', 2 <= j' < 2 + Z.of_nat b -> ~ (j' | k))).
  { induction b as [| b [(j & Hj & Hdiv & Hmin) | Hnone]].
    - right. intros j' Hj'. lia.
    - left. exists j. split; [lia | auto].
    - destruct (Z.eq_dec (k mod (2 + Z.of_nat b)) 0) as [Hd | Hnd].
      + left. exists (2 + Z.of_nat b). split; [lia |]. split.
        * apply Z.mod_divide; [lia | exact Hd].
        * intros j' Hj'. apply Hnone. lia.
      + right. intros j' Hj'.
        destruct (Z.eq_dec j' (2 + Z.of_nat b)) as [-> | Hne].
        * intros Hd. apply Hnd. apply Z.mod_divide; [lia | exact Hd].
        * apply Hnone. lia. }
  destruct (Hscan (Z.to_nat (k - 1))) as [(j & Hj & Hdiv & Hmin) | Hnone].
  - exists j. split; [lia | auto].
  - exfalso. apply (Hnone k); [lia | apply Z.divide_refl].
Qed.

Section PrimePowerComplete.
Context {F : FloatOps}.

Lemma prime_power_loop_skip (n : Z) (ks ks' : list Z) :
  (forall k, In k ks -> exists c, pow_inv n k = Return c /\
                          forall r, r ^ k <> n) ->
  prime_power_loop n (ks ++ ks') = prime_power_loop n ks'.
Proof.
  induction ks as [| k ks IH]; intros Hks; [reflexivity |].
  cbn [app prime_power_loop].
  destruct (Hks k (in_eq _ _)) as (c & -> & Hno). cbn [bind].
  destruct (Z.eqb_spec (Qfloor c ^ k) n) as [E | _]; [now apply Hno in E |].
  destruct (Z.eqb_spec (Qceiling c ^ k) n) as [E | _]; [now apply Hno in E |].
  apply IH. intros k' Hk'. apply Hks. now right.
Qed.

Lemma Qceiling_le_succ_floor (c : Q) : Qceiling c <= Qfloor c + 1.
Proof.
  pose proof (Qceiling_lt c) as H1. pose proof (Qlt_floor c) as H2.
  pose proof (Qlt_trans _ _ _ H1 H2) as H. rewrite <- Zlt_Qlt in H. lia.
Qed.

Lemma prime_power_loop_hit (n k root : Z) (ks : list Z) (c : Q) :
  1 <= k -> 1 <= root -> root ^ k = n ->
  pow_inv n k = Return c -> (Qfloor c = root \/ Qceiling c = root) ->
  prime_power_loop n (k :: ks) = Return (Some root).
Proof.
  intros Hk Hroot Hpow Hc Hround. cbn [prime_power_loop]. rewrite Hc. cbn [bind].
  pose proof (Qceiling_le_succ_floor c) as Hcf.
  destruct (Z.eqb_spec (Qfloor c ^ k) n) as [E | NE].
  - do 2 f_equal. rewrite <- Hpow in E.
    apply Z.pow_inj_l in E; lia.
  - destruct Hround as [Hfl | Hce]; [congruence |].
    rewrite Hce, Hpow, Z.eqb_refl. reflexivity.
Qed.

(** C4 (amended): for a prime [p] and [k >= 2], when the float routines
    are accurate at [p ^ k], [find_factor_of_prime_power(p ^ k)] returns
    [p ^ (k / j)] for the least divisor [j >= 2] of [k], a non-trivial
    factor of [p ^ k]; this is [p] itself when [k] is prime. *)
Theorem find_factor_of_prime_power_root (p k : Z) :
  Z.prime p -> 2 <= k -> float_accurate F (p ^ k) ->
  exists j, 2 <= j /\ (j | k) /\ (forall j', 2 <= j' < j -> ~ (j' | k)) /\
    find_factor_of_prime_power (p ^ k) = Return (Some (p ^ (k / j))) /\
    (Z.prime k -> find_factor_of_prime_power (p ^ k) = Return (Some p)).
Proof.
  intros Hp Hk ((l & Hl & Hfl) & Hroots).
  pose proof (Z.prime_ge_2 p Hp) as Hp2.
  destruct (least_divisor_exists k Hk) as (j & Hj & Hdiv & Hmin).
  exists j. split; [lia |]. split; [exact Hdiv |]. split; [exact Hmin |].
  assert (Hlog : k <= Z.log2 (p ^ k)).
  { rewrite <- (Z.log2_pow2 k) at 1 by lia.
    apply Z.log2_le_mono. apply Z.pow_le_mono_l. lia. }
  assert (Hq : k = j * (k / j)).
  { destruct Hdiv as (q & Hq). rewrite Hq at 2. rewrite Z.div_mul by lia. lia. }
  assert (Hq1 : 1 <= k / j) by nia.
  assert (Hrun : find_factor_of_prime_power (p ^ k) = Return (Some (p ^ (k / j)))).
  { unfold find_factor_of_prime_power. rewrite Hl. cbn [bind]. rewrite Hfl.
    rewrite (range_split 2 j) by lia.
    rewrite prime_power_loop_skip.
    - destruct (Hroots j ltac:(lia)) as (c & Hc & Hround).
      assert (Hpow : (p ^ (k / j)) ^ j = p ^ k).
      { rewrite <- Z.pow_mul_r by lia. f_equal. lia. }
      assert (Hroot1 : 1 <= p ^ (k / j)).
      { pose proof (Z.pow_pos_nonneg p (k / j)). lia. }
      apply prime_power_loop_hit with (c := c); try lia; try assumption.
      apply Hround; [lia | exact Hpow].
    - intros k' Hk'. apply range_In in Hk'.
      destruct (Hroots k' ltac:(lia)) as (c & Hc & _).
      exists c. split; [exact Hc |]. intros r Hr.
      apply (Hmin k'); [lia |].
      apply (perfect_power_exponent p Hp k k' r); lia. }
  split; [exact Hrun |].
  intros (_ & Hkprime).
  assert (j = k).
  { destruct (Z.eq_dec j k) as [? | Hne]; [assumption |].
    exfalso. apply (Hkprime j); [lia | exact Hdiv]. }
  subst j. rewrite Hrun, Z.div_same, Z.pow_1_r by lia. reflexivity.
Qed.
End PrimePowerComplete.

Lemma find_factor_of_prime_power_root_witness :
  exists j, 2 <= j /\ (j | 4) /\ (forall j', 2 <= j' < j -> ~ (j' | 4)) /\
    find_factor_of_prime_power (F := reference_float_ops) (3 ^ 4)
      = Return (Some (3 ^ (4 / j))) /\
    (Z.prime 4 ->
       find_factor_of_prime_power (F := reference_float_ops) (3 ^ 4)
       = Return (Some 3)).
Proof.
  apply (@find_factor_of_prime_power_root reference_float_ops 3 4);
    [exact Z.prime_3 | lia | apply reference_float_accurate; lia].
Defined.

(** C4, counterexample with a composite exponent: for [p = 2], [k = 4]
    the square root of 16 is met first, and 4 is returned, not 2. *)
Lemma find_factor_of_prime_power_16 :
  Z.prime 2 /\ 2 <= 4 /\
  find_factor_of_prime_power (F := reference_float_ops) (2 ^ 4)
    = Return (Some 4) /\
  find_factor_of_prime_power (F := reference_float_ops) (2 ^ 4)
    <> Return (Some 2).
Proof.
  split; [exact Z.prime_2 |]. split; [lia |]. split; [reflexivity | discriminate].
Qed.

(* ================================================================= *)
(** ** The factor search *)

Lemma strictly_between_spec (lo c hi : Z) :
  strictly_between lo c hi = true <-> lo < c < hi.
Proof.
  unfold strictly_between. rewrite andb_true_iff, !Z.ltb_lt. tauto.
Qed.

Lemma Qfloor_nonneg (c : Q) : (0 <= c)%Q -> 0 <= Qfloor c.
Proof. intros H. apply (Qfloor_resp_le 0 c) in H. exact H. Qed.

Lemma Qceiling_nonneg (c : Q) : (0 <= c)%Q -> 0 <= Qceiling c.
Proof. intros H. apply (Qceiling_resp_le 0 c) in H. exact H. Qed.

(** A non-negative proper root of [n >= 2] is a non-trivial factor. *)
Lemma root_is_factor (n c k : Z) :
  2 <= n -> 2 <= k -> 0 <= c -> c ^ k = n -> n mod c = 0 /\ 1 < c < n.
Proof.
  intros Hn Hk Hc Hpow.
  assert (Hc2 : 2 <= c).
  { destruct (Z.eq_dec c 0) as [-> | ?].
    - rewrite Z.pow_0_l in Hpow by lia. lia.
    - destruct (Z.eq_dec c 1) as [-> | ?]; [| lia].
      rewrite Z.pow_1_l in Hpow by lia. lia. }
  assert (Hsplit : n = c * c ^ (k - 1)).
  { rewrite <- Hpow. rewrite <- Z.pow_succ_r by lia. f_equal. lia. }
  assert (Hrest : 2 <= c ^ (k - 1)).
  { replace 2 with (2 ^ 1) by reflexivity.
    transitivity (c ^ 1); [rewrite !Z.pow_1_r; lia |].
    apply Z.pow_le_mono_r; lia. }
  split; [| nia].
  apply Z.mod_divide; [lia |]. exists (c ^ (k - 1)). lia.
Qed.

Section PrimePowerSound.
Context {F : FloatOps}.
Hypothesis F_nonneg : float_nonneg F.

Lemma prime_power_loop_sound (n : Z) (ks : list Z) (c : Z) :
  (forall k, In k ks -> 2 <= k) ->
  prime_power_loop n ks = Return (Some c) ->
  exists k, 2 <= k /\ In k ks /\ 0 <= c /\ c ^ k = n.
Proof.
  induction ks as [| k ks IH]; intros Hks Hrun; simpl in Hrun; [discriminate |].
  destruct (pow_inv n k) as [q | e] eqn:Hq; [| discriminate].
  cbn [bind] in Hrun. apply F_nonneg in Hq.
  destruct (Z.eqb_spec (Qfloor q ^ k) n) as [H1 | H1].
  { injection Hrun as <-. exists k. repeat split; auto using in_eq, Qfloor_nonneg. }
  destruct (Z.eqb_spec (Qceiling q ^ k) n) as [H2 | H2].
  { injection Hrun as <-. exists k. repeat split; auto using in_eq, Qceiling_nonneg. }
  destruct IH as (k' & Hk' & Hin & Hc); auto using in_cons.
  exists k'. auto using in_cons.
Qed.

Lemma find_factor_of_prime_power_sound (n c : Z) :
  2 <= n -> find_factor_of_prime_power n = Return (Some c) ->
  n mod c = 0 /\ 1 < c < n.
Proof.
  intros Hn Hrun. unfold find_factor_of_prime_power in Hrun.
  destruct (log2 n) as [l | e]; [| discriminate]. cbn [bind] in Hrun.
  apply prime_power_loop_sound in Hrun.
  - destruct Hrun as (k & Hk & _ & Hc & Hpow).
    now apply (root_is_factor n c k).
  - intros k Hk. apply range_In in Hk. lia.
Qed.
End PrimePowerSound.

Lemma find_factor_loop_sound (n : Z) (order_finder : order_finder_t)
    (draws : nat -> Z) (remaining : nat) : forall attempt c,
  find_factor_loop n order_finder draws attempt remaining = Return (Some c) ->
  (c | n) /\ 1 < c < n.
Proof.
  induction remaining as [| remaining IH]; intros attempt c Hrun;
    cbn [find_factor_loop] in Hrun; [discriminate |].
  destruct (randint (draws attempt) 2 (n - 1)) as [x | e]; [| discriminate].
  cbn [bind] in Hrun.
  destruct (strictly_between 1 (Z.gcd x n) n) eqn:Hlucky.
  { injection Hrun as <-. apply strictly_between_spec in Hlucky.
    split; [apply Z.gcd_divide_r | exact Hlucky]. }
  destruct (order_finder attempt x n) as [[r |] | e]; cbn [bind] in Hrun;
    [| eauto | discriminate].
  destruct (negb (r mod 2 =? 0)); [eauto |].
  destruct (negb (strictly_between 1 (x ^ (r / 2) mod n) n)); [discriminate |].
  destruct (strictly_between 1 (Z.gcd (x ^ (r / 2) mod n - 1) n) n) eqn:Hc;
    [| eauto].
  injection Hrun as <-. apply strictly_between_spec in Hc.
  split; [apply Z.gcd_divide_r | exact Hc].
Qed.

(** C5: for [n >= 2], any order finder, any attempt budget and any
    sequence of random draws, a value [c] returned by [find_factor]
    divides [n] and lies strictly between 1 and [n].  The float library is
    only asked not to return a negative power of a positive integer. *)
Theorem find_factor_sound (F : FloatOps) (n : Z) (order_finder : order_finder_t)
    (max_attempts : Z) (draws : nat -> Z) (c : Z) :
  float_nonneg F -> 2 <= n ->
  find_factor n order_finder max_attempts draws = Return (Some c) ->
  n mod c = 0 /\ 1 < c < n.
Proof.
  intros HF Hn. unfold find_factor.
  destruct (isprime n) eqn:Hprime; [discriminate |].
  destruct (Z.eqb_spec (n mod 2) 0) as [Heven | Hodd].
  { intros [= <-]. split; [exact Heven |].
    assert (n <> 2) by (intros ->; discriminate Hprime).
    pose proof (Z.div_mod n 2 ltac:(lia)). lia. }
  destruct (find_factor_of_prime_power n) as [[c' |] | e] eqn:Hpp;
    cbn [bind]; [| | discriminate].
  - intros [= <-]. now apply (find_factor_of_prime_power_sound HF n c').
  - intros Hloop. apply find_factor_loop_sound in Hloop.
    destruct Hloop as (Hdiv & Hc). split; [| exact Hc].
    apply Z.mod_divide; [lia | exact Hdiv].
Qed.

Lemma find_factor_sound_witness : 15 mod 3 = 0 /\ 1 < 3 < 15.
Proof.
  apply (find_factor_sound reference_float_ops 15
           (fun _ => naive_order_finder 20) 5 (fun _ => 7) 3);
    [apply reference_float_nonneg | lia | reflexivity].
Defined.

Section TrueOrder.
Variables x n r : Z.
Hypothesis n_gt_1 : 1 < n.
Hypothesis x_coprime : Z.gcd x n = 1.
Hypothesis r_order : is_order x n r.
Hypothesis r_even : r mod 2 = 0.

(** With the true order the asserted invariant of [find_factor] holds. *)
Lemma true_order_keeps_assertion :
  strictly_between 1 (x ^ (r / 2) mod n) n = true.
Proof.
  destruct r_order as (Hr & Hone & Hmin).
  pose proof (Z.div_mod r 2 ltac:(lia)) as Hhalf.
  pose proof (Z.mod_pos_bound (x ^ (r / 2)) n ltac:(lia)) as Hb.
  apply strictly_between_spec.
  assert (Hne1 : x ^ (r / 2) mod n <> 1) by (apply Hmin; lia).
  assert (Hne0 : x ^ (r / 2) mod n <> 0).
  { intros H0. apply Z.mod_divide in H0; [| lia].
    assert (Hco : Z.coprime n (x ^ (r / 2))).
    { apply Z.coprime_pow_r; [lia |]. unfold Z.coprime.
      rewrite Z.gcd_comm. exact x_coprime. }
    unfold Z.coprime in Hco.
    rewrite (proj1 (Z.divide_gcd_iff n (x ^ (r / 2)) ltac:(lia)) H0) in Hco.
    lia. }
  lia.
Qed.
End TrueOrder.

(** C1: the asserted invariant [1 < y < n] does not hold for every value the
    quantum order finder can return.  For [n = 21] and the draw [x = 4]
    (of order 3), the measurement 1365 on the 13 exponent qubits decodes to
    [r = 6]: a verified multiple of the order, not the order.  Then
    [y = 4 ** 3 % 21 = 1] and [find_factor] stops on its assertion. *)
Theorem find_factor_assertion_fails :
  let sample := fun c : Circuit => mkResult 1365 (N.of_nat (length (exponent c))) in
  2 <= 4 < 21 /\ Z.gcd 4 21 = 1 /\
  is_order 4 21 3 /\
  quantum_order_finder sample 4 21 = Return (Some 6) /\
  4 ^ (6 / 2) mod 21 = 1 /\
  find_factor (F := reference_float_ops) 21
    (fun _ => quantum_order_finder sample) 5 (fun _ => 4)
    = Raise AssertionError.
Proof.
  cbv zeta. split; [lia |]. split; [reflexivity |]. split.
  - split; [lia |]. split; [reflexivity |].
    intros r' Hr'. assert (Hcase : r' = 1 \/ r' = 2) by lia.
    destruct Hcase as [-> | ->]; discriminate.
  - split; [reflexivity |]. split; reflexivity.
Qed.

(* ================================================================= *)
(** ** Shortcuts and attempts of the factor search *)

Lemma isprime_spec (n : Z) : isprime n = true <-> Z.prime n.
Proof.
  unfold isprime, Z.prime.
  rewrite andb_true_iff, Z.leb_le, forallb_forall. split.
  - intros (Hn & Hdiv). split; [lia |]. intros d Hd Hdn.
    specialize (Hdiv d (proj2 (range_In 2 n d) ltac:(lia))).
    apply negb_true_iff, Z.eqb_neq in Hdiv. apply Hdiv.
    apply Z.mod_divide; [lia | exact Hdn].
  - intros (Hn & Hdiv). split; [lia |]. intros d Hd. apply range_In in Hd.
    apply negb_true_iff, Z.eqb_neq. intros Hmod.
    apply (Hdiv d); [lia |]. apply Z.mod_divide; [lia | exact Hmod].
Qed.

Lemma even_not_prime (n : Z) : n mod 2 = 0 -> n <> 2 -> isprime n = false.
Proof.
  intros Heven Hn2. apply not_true_is_false. rewrite isprime_spec.
  intros (Hn & Hdiv). apply (Hdiv 2).
  - pose proof (Z.div_mod n 2 ltac:(lia)). lia.
  - apply Z.mod_divide; [lia | exact Heven].
Qed.

Section Order2.
Variables x n : Z.
Hypothesis n_gt_1 : 1 < n.

Lemma pow_mod_one_mul (o q : Z) :
  0 <= o -> 0 <= q -> x ^ o mod n = 1 -> x ^ (o * q) mod n = 1.
Proof.
  intros Ho Hq H1. rewrite Z.pow_mul_r by lia.
  rewrite <- Z.mod_pow_l, H1, Z.pow_1_l by lia.
  apply Z.mod_small. lia.
Qed.

Lemma order_divides (o e : Z) :
  is_order x n o -> 0 <= e -> x ^ e mod n = 1 -> (o | e).
Proof.
  intros (Ho & Ho1 & Hmin) He He1.
  pose proof (Z.div_mod e o ltac:(lia)) as Hdm.
  pose proof (Z.mod_pos_bound e o Ho) as Hb.
  assert (Hq : 0 <= e / o) by (apply Z.div_pos; lia).
  destruct (Z.eq_dec (e mod o) 0) as [Hz | Hnz].
  - apply Z.mod_divide; [lia | exact Hz].
  - exfalso. apply (Hmin (e mod o)); [lia |].
    rewrite Hdm, Z.pow_add_r in He1 by nia.
    rewrite Zmult_mod, (pow_mod_one_mul o (e / o)) in He1 by lia.
    rewrite Z.mul_1_l, Z.mod_mod in He1 by lia. exact He1.
Qed.

(** The heart of the reduction: a square root of 1 other than [1] and
    [n - 1] shares a proper factor with [n]. *)
Lemma nontrivial_root_splits (y : Z) :
  1 < y < n - 1 -> (y * y) mod n = 1 ->
  1 < Z.gcd (y - 1) n < n.
Proof.
  intros Hy Hsq.
  pose proof (Z.gcd_nonneg (y - 1) n) as Hnn.
  pose proof (Z.gcd_divide_l (y - 1) n) as Hl.
  pose proof (Z.gcd_divide_r (y - 1) n) as Hr.
  assert (Hdiv : (n | (y - 1) * (y + 1))).
  { replace ((y - 1) * (y + 1)) with (y * y - 1) by ring.
    apply Z.mod_divide; [lia |].
    rewrite Zminus_mod, Hsq, Z.mod_1_l by lia. reflexivity. }
  assert (Hle : Z.gcd (y - 1) n <= y - 1) by (apply Z.divide_pos_le; [lia | exact Hl]).
  split; [| lia].
  destruct (Z.eq_dec (Z.gcd (y - 1) n) 1) as [H1 | H1].
  - exfalso. apply Z.gauss in Hdiv; [| rewrite Z.gcd_comm; exact H1].
    apply Z.divide_pos_le in Hdiv; lia.
  - destruct (Z.eq_dec (Z.gcd (y - 1) n) 0) as [H0 | H0]; [| lia].
    apply Z.gcd_eq_0 in H0. lia.
Qed.
End Order2.

Lemma coprime_draw (x n : Z) :
  2 <= x <= n - 1 -> strictly_between 1 (Z.gcd x n) n = false -> Z.gcd x n = 1.
Proof.
  intros Hx Hsb.
  pose proof (Z.gcd_nonneg x n) as Hnn.
  assert (Hle : Z.gcd x n <= x).
  { apply Z.divide_pos_le; [lia | apply Z.gcd_divide_l]. }
  destruct (Z.eq_dec (Z.gcd x n) 0) as [H0 | H0].
  { apply Z.gcd_eq_0 in H0. lia. }
  destruct (Z.eq_dec (Z.gcd x n) 1) as [H1 | H1]; [exact H1 |].
  assert (Hsb' : strictly_between 1 (Z.gcd x n) n = true)
    by (apply strictly_between_spec; lia).
  congruence.
Qed.

Lemma half_power_squares (x n r : Z) :
  0 <= r -> r mod 2 = 0 ->
  (x ^ (r / 2) mod n * (x ^ (r / 2) mod n)) mod n = x ^ r mod n.
Proof.
  intros Hr Heven. rewrite <- Zmult_mod, <- Z.pow_add_r by (apply Z.div_pos; lia).
  f_equal. f_equal. pose proof (Z.div_mod r 2 ltac:(lia)). lia.
Qed.

Section Attempt.
Variables (n : Z) (order_finder : order_finder_t) (draws : nat -> Z).
Variables (attempt remaining : nat) (r : Z).
Let x := draws attempt.
Let y := x ^ (r / 2) mod n.
Hypothesis n_ge_3 : 3 <= n.
Hypothesis x_coprime : Z.gcd x n = 1.
Hypothesis finder_returns : order_finder attempt x n = Return (Some r).
Hypothesis r_order : is_order x n r.
Hypothesis r_even : r mod 2 = 0.

(** X2: one attempt of the search loop, for a draw [x] coprime to [n >= 3]
    whose order finder returns the true, even order [r].  With
    [y = x ** (r // 2) % n]: if [y <> n - 1] the attempt returns
    [gcd(y - 1, n)], a factor strictly between 1 and [n]; if [y = n - 1]
    (and [n] is odd) the attempt is lost and the loop goes on. *)
Theorem find_factor_attempt_with_even_order :
  (y <> n - 1 ->
     1 < Z.gcd (y - 1) n < n /\
     find_factor_loop n order_finder draws attempt (S remaining)
       = Return (Some (Z.gcd (y - 1) n))) /\
  (y = n - 1 -> n mod 2 = 1 ->
     find_factor_loop n order_finder draws attempt (S remaining)
       = find_factor_loop n order_finder draws (S attempt) remaining).
Proof.
  assert (Hassert : strictly_between 1 y n = true).
  { apply true_order_keeps_assertion; try assumption; lia. }
  assert (Hhead :
            find_factor_loop n order_finder draws attempt (S remaining) =
            if strictly_between 1 (Z.gcd (y - 1) n) n
            then Return (Some (Z.gcd (y - 1) n))
            else find_factor_loop n order_finder draws (S attempt) remaining).
  { cbn [find_factor_loop]. unfold randint.
    destruct (Z.ltb_spec (n - 1) 2); [lia |]. cbn [bind]. fold x.
    rewrite x_coprime. unfold strictly_between at 1. cbn [Z.ltb Z.compare andb].
    rewrite finder_returns. cbn [bind].
    rewrite r_even. cbn [Z.eqb negb]. fold y. rewrite Hassert. reflexivity. }
  apply strictly_between_spec in Hassert.
  split.
  - intros Hy.
    assert (Hsplit : 1 < Z.gcd (y - 1) n < n).
    { apply nontrivial_root_splits; [lia | lia |].
      unfold y. destruct r_order as (Hr & H1 & _).
      rewrite half_power_squares by lia. exact H1. }
    split; [exact Hsplit |].
    rewrite Hhead. apply strictly_between_spec in Hsplit. now rewrite Hsplit.
  - intros Hy Hodd. rewrite Hhead.
    assert (Hg : Z.gcd (y - 1) n = 1).
    { rewrite Hy.
      pose proof (Z.gcd_nonneg (n - 1 - 1) n) as Hnn.
      pose proof (Z.gcd_divide_l (n - 1 - 1) n) as Hl.
      pose proof (Z.gcd_divide_r (n - 1 - 1) n) as Hr.
      pose proof (Z.divide_sub_r _ _ _ Hr Hl) as H2.
      replace (n - (n - 1 - 1)) with 2 in H2 by ring.
      apply Z.divide_pos_le in H2; [| lia].
      destruct (Z.eq_dec (Z.gcd (n - 1 - 1) n) 0) as [H0 | H0].
      { apply Z.gcd_eq_0 in H0. lia. }
      destruct (Z.eq_dec (Z.gcd (n - 1 - 1) n) 2) as [E2 | E2]; [| lia].
      rewrite E2 in Hr. apply Z.mod_divide in Hr; lia. }
    rewrite Hg. reflexivity.
Qed.
End Attempt.

Section NaiveSearch.
Variables (n : Z) (fuel : nat) (draws : nat -> Z).
Hypothesis n_ge_3 : 3 <= n.
Hypothesis enough_fuel : (Z.to_nat n <= fuel)%nat.
Hypothesis draws_in_range : forall i, 2 <= draws i <= n - 1.

Lemma naive_order_finder_total (x : Z) :
  2 <= x <= n - 1 -> Z.gcd x n = 1 ->
  exists r, naive_order_finder fuel x n = Return (Some r) /\ is_order x n r.
Proof.
  intros Hx Hg.
  destruct (power_returns_to_one x n ltac:(lia) Hg) as (R & HR & HR1).
  assert (Hinit : x = x ^ 1 mod n).
  { rewrite Z.pow_1_r. symmetry. apply Z.mod_small. lia. }
  destruct (naive_loop_returns x n ltac:(lia) R HR1 fuel 1 x) as (r & Hr);
    [lia | exact Hinit | lia |].
  exists r. unfold naive_order_finder.
  rewrite valid_argument by (assumption || lia). rewrite Hr. split; [reflexivity |].
  apply (naive_loop_sound x n ltac:(lia) fuel 1 x); try assumption; lia.
Qed.

Lemma find_factor_loop_naive_returns (remaining : nat) : forall attempt,
  exists res,
    find_factor_loop n (fun _ => naive_order_finder fuel) draws attempt remaining
    = Return res.
Proof.
  induction remaining as [| remaining IH]; intros attempt; cbn [find_factor_loop].
  - eauto.
  - unfold randint. destruct (Z.ltb_spec (n - 1) 2); [lia |]. cbn [bind].
    pose proof (draws_in_range attempt) as Hx.
    destruct (strictly_between 1 (Z.gcd (draws attempt) n) n) eqn:Hlucky; [eauto |].
    apply coprime_draw in Hlucky; [| exact Hx].
    destruct (naive_order_finder_total (draws attempt) Hx Hlucky) as (r & -> & Hord).
    cbn [bind].
    destruct (Z.eqb_spec (r mod 2) 0) as [Heven | Hodd]; cbn [negb]; [| apply IH].
    rewrite (true_order_keeps_assertion (draws attempt) n r) by (assumption || lia).
    cbn [negb]. destruct (strictly_between 1 _ n); [eauto | apply IH].
Qed.
End NaiveSearch.

(* ================================================================= *)
(** ** What the decoder can return *)

Lemma Qred_den_le (a : Z) (b : positive) :
  Zpos (Qden (Qred (a # b))) <= Zpos b.
Proof.
  unfold Qred.
  pose proof (Z.ggcd_correct_divisors a (Zpos b)) as Hd.
  pose proof (Z.ggcd_gcd a (Zpos b)) as Hg.
  pose proof (Z.gcd_nonneg a (Zpos b)) as Hnn.
  destruct (Z.ggcd a (Zpos b)) as (g & aa & bb). cbn [fst snd] in *.
  destruct Hd as (_ & Hb). cbn [Qden]. rewrite <- Hg in Hnn.
  assert (0 < g) by (destruct (Z.eq_dec g 0) as [-> | ?]; lia).
  assert (0 < bb) by (apply (Z.mul_pos_cancel_l g bb); lia).
  rewrite Z2Pos.id by lia. nia.
Qed.

Lemma Fraction_den_le (n d : Z) (f : Q) :
  0 < d -> Fraction n d = Return f -> denominator f <= d.
Proof.
  intros Hd. unfold Fraction. destruct (Z.eqb_spec d 0); [lia |].
  intros [= <-]. unfold denominator.
  etransitivity; [apply Qred_den_le |]. rewrite Z2Pos.id; lia.
Qed.

Lemma limit_denominator_bounded (self : Q) (M : Z) :
  1 <= M -> Z.gcd (numerator self) (denominator self) = 1 ->
  exists f, limit_denominator self M = Return f /\ denominator f <= M.
Proof.
  intros HM Hg. unfold limit_denominator.
  destruct (Z.ltb_spec M 1); [lia |].
  destruct (Z.leb_spec (denominator self) M) as [Hsmall | Hlarge]; [eauto |].
  set (N := numerator self) in *. set (D := denominator self) in *.
  assert (HD : 0 < D) by lia.
  unfold cf_fuel. cbn [limit_denominator_loop].
  destruct (Z.eqb_spec D 0); [lia |].
  replace (1 + N / D * 0) with 1 by ring.
  destruct (Z.gtb_spec 1 M); [lia |].
  destruct (loop_returns M D Hlarge (S (Z.to_nat (Z.log2 D)))
              (2 * S (Z.to_nat (Z.log2 D))) 1 0 (0 + N / D * 1) 1 D (N - N / D * D))
    as (p0 & q0 & p1 & q1 & Hrun & Hq0 & Hq1).
  - lia.
  - pose proof (Z.mod_pos_bound N D HD) as Hb.
    assert (Hmod : N - N / D * D = N mod D) by (rewrite Z.mod_eq by lia; ring).
    repeat split; try lia.
    replace (N - N / D * D) with (N + (- (N / D)) * D) by ring.
    rewrite Z.gcd_add_mult_diag_r, Z.gcd_comm. exact Hg.
  - rewrite Nat2Z.inj_succ, Z2Nat.id by apply Z.log2_nonneg.
    apply Z.log2_spec. exact HD.
  - rewrite Hrun. cbn [bind].
    destruct (Z.eqb_spec q1 0); [lia |].
    set (k := (M - q0) / q1).
    assert (Hk : k * q1 <= M - q0 < (k + 1) * q1).
    { unfold k. pose proof (Z.div_mod (M - q0) q1 ltac:(lia)).
      pose proof (Z.mod_pos_bound (M - q0) q1 ltac:(lia)). nia. }
    destruct (Fraction_returns (p0 + k * p1) (q0 + k * q1)) as (b1 & Hb1); [nia |].
    destruct (Fraction_returns p1 q1) as (b2 & Hb2); [lia |].
    rewrite Hb1, Hb2. cbn [bind].
    apply Fraction_den_le in Hb1; [| nia].
    apply Fraction_den_le in Hb2; [| lia].
    destruct (Qle_bool _ _); eexists; (split; [reflexivity | lia]).
Qed.

(** X4: a value [r] returned by [process_measurement] lies between 1 and
    [n], passes [x ** r % n == 1], and is a multiple of the order of [x]. *)
Theorem process_measurement_result_bounds (result : Result) (x n r o : Z) :
  process_measurement result x n = Return (Some r) ->
  1 <= r <= n /\ x ^ r mod n = 1 /\ (is_order x n o -> (o | r)).
Proof.
  intros Hrun.
  assert (Hn : 1 <= n).
  { unfold process_measurement in Hrun.
    destruct (eigenphase_of result); [| discriminate]. cbn [bind] in Hrun.
    unfold limit_denominator in Hrun.
    destruct (Z.ltb_spec n 1); [discriminate | assumption]. }
  unfold process_measurement in Hrun.
  destruct (eigenphase_of result) as [e |]; [| discriminate]. cbn [bind] in Hrun.
  destruct (limit_denominator_bounded (from_float e) n Hn) as (f & Hf & Hden).
  { apply gcd_Qred. }
  rewrite Hf in Hrun. cbn [bind] in Hrun.
  destruct (numerator f =? 0); [discriminate |].
  destruct (Z.eqb_spec (x ^ denominator f mod n) 1) as [Hv | Hv];
    cbn [negb] in Hrun; [| discriminate].
  injection Hrun as <-.
  assert (Hpos : 1 <= denominator f) by (unfold denominator; lia).
  split; [lia |]. split; [exact Hv |].
  intros Hord.
  assert (1 < n).
  { destruct (Z.eq_dec n 1) as [-> | ?]; [| lia]. rewrite Z.mod_1_r in Hv. lia. }
  apply (order_divides x n); try assumption; lia.
Qed.

(* ================================================================= *)
(** ** Eigenphase, circuit shape and register capacity *)

Lemma round_half_even_near (m shift : Z) :
  0 < shift ->
  m / 2 ^ shift <= round_half_even m shift <= m / 2 ^ shift + 1.
Proof.
  intros Hs. unfold round_half_even.
  destruct (Z.leb_spec shift 0); [lia |]. split_ifs; lia.
Qed.

(** X7: for a measured integer that fits its register the eigenphase is
    computed without error, lies in [[0, 1]], and equals [m / 2^b] exactly
    when the register has at most 53 bits. *)
Theorem eigenphase_of_range (result : Result) :
  well_formed result ->
  exists e, eigenphase_of result = Return e /\
    (0 <= e <= 1)%Q /\
    ((exponent_num_bits result <= 53)%N ->
       (e == inject_Z (Z.of_N (exponent_as_integer result))
             / inject_Z (2 ^ Z.of_N (exponent_num_bits result)))%Q).
Proof.
  destruct result as [mN bN]. unfold well_formed, eigenphase_of.
  cbn [exponent_as_integer exponent_num_bits]. intros Hwf.
  set (m := Z.of_N mN). set (b := Z.of_N bN).
  assert (Hm : 0 <= m < 2 ^ b).
  { unfold m, b. split; [lia |].
    change 2 with (Z.of_N 2). rewrite <- N2Z.inj_pow. lia. }
  assert (Hb : 0 <= b) by (unfold b; lia).
  assert (Hpb : 0 < 2 ^ b) by (apply Z.pow_pos_nonneg; lia).
  unfold true_divide_pow2.
  destruct (Z.eqb_spec m 0) as [Hm0 | Hm0].
  { exists 0%Q. split; [reflexivity |]. split; [split; discriminate |].
    intros _. rewrite Hm0. unfold Qdiv. now rewrite Qmult_0_l. }
  set (shift := Z.max 0 _).
  assert (Hlog : Z.log2 m < b) by (apply Z.log2_lt_pow2; lia).
  assert (Hshift : 0 <= shift <= b).
  { unfold shift. rewrite bit_length_pos by lia. lia. }
  assert (Hps : 0 < 2 ^ shift) by (apply Z.pow_pos_nonneg; lia).
  assert (Hsplit : 2 ^ b = 2 ^ shift * 2 ^ (b - shift)).
  { rewrite <- Z.pow_add_r by lia. f_equal. lia. }
  assert (Hmant : 0 <= round_half_even m shift * 2 ^ shift <= 2 ^ b).
  { destruct (Z.eq_dec shift 0) as [H0 | H0].
    - rewrite H0. unfold round_half_even. cbn. lia.
    - pose proof (round_half_even_near m shift ltac:(lia)) as Hnear.
      assert (0 <= m / 2 ^ shift) by (apply Z.div_pos; lia).
      assert (m / 2 ^ shift < 2 ^ (b - shift)).
      { apply Z.div_lt_upper_bound; lia. }
      split; [nia |]. rewrite Hsplit. nia. }
  assert (2 ^ b < 2 ^ (1024 + b)) by (apply Z.pow_lt_mono_r; lia).
  destruct (Z.leb_spec (2 ^ (1024 + b)) (round_half_even m shift * 2 ^ shift)); [lia |].
  eexists. split; [reflexivity |]. split.
  - unfold Qle. cbn [Qnum Qden]. rewrite Z2Pos.id by lia. lia.
  - intros Hbits.
    assert (Hs0 : shift = 0).
    { unfold shift. rewrite bit_length_pos by lia. unfold b in *. lia. }
    rewrite Hs0. unfold round_half_even. cbn [Z.leb Z.compare].
    rewrite Z.pow_0_r, Z.mul_1_r, Qmake_Qdiv, Z2Pos.id by lia. reflexivity.
Qed.

Lemma eigenphase_of_range_witness :
  exists e, eigenphase_of (mkResult 1365 13) = Return e /\
    (0 <= e <= 1)%Q /\
    ((13 <= 53)%N -> (e == inject_Z 1365 / inject_Z (2 ^ 13))%Q).
Proof.
  apply (eigenphase_of_range (mkResult 1365 13)). reflexivity.
Defined.

Lemma range_app (a j b : Z) :
  a <= j <= b -> range a b = range a j ++ range j b.
Proof.
  intros H. unfold range.
  replace (Z.to_nat (b - a)) with (Z.to_nat (j - a) + Z.to_nat (b - j))%nat by lia.
  rewrite seq_app, map_app. f_equal.
  rewrite map_seq_from. apply map_ext. intros i. lia.
Qed.

Lemma range_NoDup (a b : Z) : NoDup (range a b).
Proof.
  unfold range. apply Finite.Injective_map_NoDup; [| apply seq_NoDup].
  intros i j. lia.
Qed.

Lemma bit_length_capacity (n : Z) : Z.abs n < 2 ^ bit_length n.
Proof.
  unfold bit_length. destruct (Z.eqb_spec n 0) as [-> | Hn]; [reflexivity |].
  apply Z.log2_spec. lia.
Qed.

(** X8: [make_order_finding_circuit] fails with [IndexError] for [n = 0];
    otherwise it builds a target register of [L = bit_length(n)] qubits
    that can hold every residue, an exponent register of [2L + 3] qubits,
    the two being the distinct line qubits [0 .. 3L + 2], and a gate whose
    registers have these widths, base [x] and modulus [n]. *)
Theorem make_order_finding_circuit_shape (x n : Z) :
  let L := bit_length n in
  (n = 0 -> make_order_finding_circuit x n = Raise IndexError) /\
  (n <> 0 ->
     exists c, make_order_finding_circuit x n = Return c /\
       Z.of_nat (length (target c)) = L /\
       Z.of_nat (length (exponent c)) = 2 * L + 3 /\
       target c ++ exponent c = range 0 (3 * L + 3) /\
       NoDup (target c ++ exponent c) /\
       length (ModularExp.target (gate c)) = length (target c) /\
       length (ModularExp.exponent (gate c)) = length (exponent c) /\
       ModularExp.base (gate c) = x /\
       ModularExp.modulus (gate c) = n /\
       Z.abs n < 2 ^ Z.of_nat (length (target c))).
Proof.
  intros L. split.
  - intros ->. reflexivity.
  - intros Hn. unfold make_order_finding_circuit, ModularExp.init. fold L.
    assert (HL : 0 < L).
    { unfold L, bit_length. destruct (Z.eqb_spec n 0); [contradiction |].
      pose proof (Z.log2_nonneg (Z.abs n)). lia. }
    destruct (Z.eqb_spec L 0); [lia |].
    rewrite !repeat_length, !range_length.
    destruct (Z.ltb_spec (Z.of_nat (Z.to_nat (L - 0))) L); [lia |].
    cbn [bind]. eexists. split; [reflexivity |].
    cbn [target exponent gate ModularExp.target ModularExp.exponent
         ModularExp.base ModularExp.modulus].
    rewrite !repeat_length, !range_length, <- range_app by lia.
    repeat split; try lia.
    + apply range_NoDup.
    + replace (Z.of_nat (Z.to_nat (L - 0))) with L by lia.
      apply bit_length_capacity.
Qed.



(* ================================================================= *)
(** ** Registers and circuit diagram *)

Lemma init_of_ModularExp (target exponent : list Z) (base modulus : Z)
    (g : ModularExp.t) :
  ModularExp.init target exponent base modulus = Return g ->
  Registers.init target (Qubits exponent) base modulus
    = Return (Registers.of_ModularExp g).
Proof.
  unfold ModularExp.init, Registers.init.
  destruct (_ <? _); [discriminate |]. now intros [= <-].
Qed.

Lemma registers_init_raises (target : list Z) (exponent : register)
    (base modulus : Z) (e : exn) :
  Registers.init target exponent base modulus = Raise e -> e = ValueError.
Proof.
  unfold Registers.init. destruct (_ <? _); congruence.
Qed.

(** X10: [with_registers] returns a gate exactly for the register lists
    that [registers] yields on a gate whose target holds the modulus;
    it raises nothing but [ValueError], and does so for every list that
    has not exactly 4 entries. *)
Theorem with_registers_round_trip (new_registers : list register) :
  (forall g, Registers.with_registers new_registers = Return g <->
       Registers.registers g = new_registers /\
       bit_length (Registers.modulus g)
         <= Z.of_nat (length (Registers.target g))) /\
  (forall e, Registers.with_registers new_registers = Raise e -> e = ValueError) /\
  (length new_registers <> 4%nat ->
     Registers.with_registers new_registers = Raise ValueError).
Proof.
  split; [| split].
  - intros g. split.
    + destruct new_registers as [| [? | t] [| ex [| [b | ?] [| [m | ?] [| ? ?]]]]];
        cbn [Registers.with_registers]; try discriminate.
      unfold Registers.init.
      destruct (Z.ltb_spec (Z.of_nat (length t)) (bit_length m)); [discriminate |].
      intros [= <-]. split; [reflexivity | assumption].
    + intros (<- & Hinv). destruct g as [t ex b m]. cbn in *.
      unfold Registers.init. cbn.
      destruct (Z.ltb_spec (Z.of_nat (length t)) (bit_length m)); [lia | reflexivity].
  - intros e.
    destruct new_registers as [| [? | t] [| ex [| [b | ?] [| [m | ?] [| ? ?]]]]];
      cbn [Registers.with_registers]; try congruence.
    apply registers_init_raises.
  - intros Hlen.
    destruct new_registers as [| ? [| ? [| ? [| ? [| ? ?]]]]];
      cbn [Registers.with_registers]; try reflexivity.
    cbn in Hlen. lia.
Qed.



(* ================================================================= *)
(** ** The decoder on near phases *)

Lemma mul_abs_bound (c c' y X : Z) :
  0 <= c <= c' -> - X <= y <= X -> - (c' * X) <= c * y <= c' * X.
Proof.
  intros Hc Hy. assert (0 <= X) by lia.
  assert (c * X <= c' * X) by (apply Z.mul_le_mono_nonneg_r; lia).
  assert (c * y <= c * X) by (apply Z.mul_le_mono_nonneg_l; lia).
  assert (c * (- X) <= c * y) by (apply Z.mul_le_mono_nonneg_l; lia).
  lia.
Qed.

Lemma mul_lt_unit (D V : Z) : 0 < D -> - D < D * V < D -> V = 0.
Proof. intros HD H. nia. Qed.

Lemma tail_denominator_bound (D M n d a q0 q1 : Z) :
  n * q1 + d * q0 = D -> 0 <= q0 -> 1 <= q1 <= M -> 0 < d ->
  n < (a + 1) * d -> q0 + a * q1 <= M ->
  D * q1 < 2 * M * M * d.
Proof.
  intros HD Hq0 Hq1 Hd Hn Hgo.
  assert (H1 : n * q1 < (a + 1) * d * q1)
    by (apply Z.mul_lt_mono_pos_r; lia).
  assert (H2 : D < d * (q1 + (q0 + a * q1))) by (rewrite <- HD; lia).
  assert (H3 : d * (q1 + (q0 + a * q1)) <= d * (2 * M))
    by (apply Z.mul_le_mono_nonneg_l; lia).
  assert (H4 : D * q1 < d * (2 * M) * q1)
    by (apply Z.mul_lt_mono_pos_r; lia).
  assert (H5 : d * (2 * M) * q1 <= d * (2 * M) * M).
  { apply Z.mul_le_mono_nonneg_l; [| lia].
    apply Z.mul_nonneg_nonneg; lia. }
  replace (2 * M * M * d) with (d * (2 * M) * M) by ring. lia.
Qed.

Section Convergents.
Variables N D M s r : Z.
Hypothesis D_pos : 0 < D.
Hypothesis r_range : 0 < r <= M.
Hypothesis sr_near : near N D s r M.

Lemma near_scaled : 2 * r * Z.abs (r * N - s * D) < D.
Proof.
  unfold near in sr_near.
  assert (Hx : 0 <= Z.abs (r * N - s * D)) by apply Z.abs_nonneg.
  set (X := Z.abs (r * N - s * D)) in *.
  assert (Hrr : r * r <= M * M) by nia.
  assert (Hle : (r * r) * X <= (M * M) * X)
    by (apply Z.mul_le_mono_nonneg_r; assumption).
  apply (Z.mul_lt_mono_pos_r r); [lia |].
  replace (2 * r * X * r) with (2 * (r * r * X)) by ring.
  replace (2 * M * M * X) with (2 * (M * M * X)) in sr_near by ring.
  lia.
Qed.

Section Step.
Variables p0 q0 p1 q1 n d a : Z.
Hypothesis HD : n * q1 + d * q0 = D.
Hypothesis HN : n * p1 + d * p0 = N.
Hypothesis Heps : p1 * q0 - p0 * q1 = 1 \/ p1 * q0 - p0 * q1 = -1.
Hypothesis q0_nonneg : 0 <= q0.
Hypothesis q1_range : 1 <= q1 <= r.
Hypothesis a_pos : 1 <= a.
Hypothesis tail : 0 <= n - a * d < d.

Lemma convergent_error : q1 * N - p1 * D = d \/ q1 * N - p1 * D = - d.
Proof.
  subst N D. destruct Heps as [E | E]; [right | left].
  - replace (q1 * (n * p1 + d * p0) - p1 * (n * q1 + d * q0))
      with (- (d * (p1 * q0 - p0 * q1))) by ring. rewrite E. ring.
  - replace (q1 * (n * p1 + d * p0) - p1 * (n * q1 + d * q0))
      with (- (d * (p1 * q0 - p0 * q1))) by ring. rewrite E. ring.
Qed.

(** Between two consecutive denominators only the convergent itself is
    that close. *)
Lemma near_is_convergent : r < q0 + a * q1 -> s * q1 = r * p1.
Proof.
  intros Hr.
  pose proof near_scaled as Hnear.
  pose proof convergent_error as Hce.
  pose (V := r * p1 - s * q1). pose (W := r * (p0 + a * p1) - s * (q0 + a * q1)).
  assert (Hdet : (q0 + a * q1) * V - q1 * W = r * (p1 * q0 - p0 * q1))
    by (unfold V, W; ring).
  assert (Herr : r * N - s * D = (n - a * d) * V + d * W)
    by (unfold V, W; rewrite <- HN, <- HD; ring).
  assert (HDV : D * V = q1 * (r * N - s * D) - r * (q1 * N - p1 * D))
    by (unfold V; ring).
  destruct (Z.eq_dec V 0) as [HV | HV]; [unfold V in HV; lia |].
  exfalso.
  assert (Hsign : (V <= -1 /\ W <= -1) \/ (1 <= V /\ 1 <= W)).
  { assert (Hq2 : 0 < q0 + a * q1) by lia.
    destruct (Z.lt_trichotomy V 0) as [Vn | [Vz | Vp]]; [left | contradiction | right].
    - split; [lia |].
      assert ((q0 + a * q1) * V <= - (q0 + a * q1)) by nia.
      assert (q1 * W < 0) by (destruct Heps as [E | E]; rewrite E in Hdet; lia).
      destruct (Z.le_gt_cases 0 W); [| lia].
      assert (0 <= q1 * W) by (apply Z.mul_nonneg_nonneg; lia). lia.
    - split; [lia |].
      assert (q0 + a * q1 <= (q0 + a * q1) * V) by nia.
      assert (0 < q1 * W) by (destruct Heps as [E | E]; rewrite E in Hdet; lia).
      destruct (Z.le_gt_cases W 0); [| lia].
      assert (q1 * W <= 0) by (apply Z.mul_nonneg_nonpos; lia). lia. }
  clearbody V W.
  assert (Hbig : d <= Z.abs (r * N - s * D)).
  { rewrite Herr. destruct Hsign as [(HV1 & HW1) | (HV1 & HW1)].
    - assert ((n - a * d) * V <= 0) by (apply Z.mul_nonneg_nonpos; lia).
      assert (d * W <= d * -1) by (apply Z.mul_le_mono_nonneg_l; lia). lia.
    - assert (0 <= (n - a * d) * V) by (apply Z.mul_nonneg_nonneg; lia).
      assert (d * 1 <= d * W) by (apply Z.mul_le_mono_nonneg_l; lia). lia. }
  set (X := Z.abs (r * N - s * D)) in *.
  assert (HX : - X <= r * N - s * D <= X) by (unfold X; lia).
  clearbody X.
  pose proof (mul_abs_bound q1 r (r * N - s * D) X ltac:(lia) HX) as Hq1X.
  pose proof (mul_abs_bound r r (q1 * N - p1 * D) X ltac:(lia) ltac:(lia)) as HrX.
  apply HV. apply (mul_lt_unit D V D_pos). lia.
Qed.

Hypothesis sr_coprime : Z.gcd s r = 1.

(** While the loop goes on, the denominators stay at or below [r]. *)
Lemma denominators_stay_below : q0 + a * q1 <= M -> q0 + a * q1 <= r.
Proof.
  intros Hgo.
  destruct (Z.le_gt_cases (q0 + a * q1) r) as [Hle | Hlt]; [exact Hle | exfalso].
  pose proof (near_is_convergent Hlt) as Heq.
  pose proof convergent_error as Hce.
  assert (Hrq : r = q1).
  { assert (Hdiv : (r | q1)).
    { apply Z.gauss with (m := s); [exists p1; lia | rewrite Z.gcd_comm; exact sr_coprime]. }
    apply Z.divide_pos_le in Hdiv; lia. }
  assert (Hsp : s = p1).
  { rewrite <- Hrq in Heq. apply (Z.mul_reg_r _ _ r); lia. }
  unfold near in sr_near.
  rewrite Hrq, Hsp in sr_near.
  assert (Habs : Z.abs (q1 * N - p1 * D) = d) by lia.
  rewrite Habs in sr_near.
  assert (Hn : n < (a + 1) * d) by lia.
  pose proof (tail_denominator_bound D M n d a q0 q1 HD q0_nonneg
                ltac:(lia) ltac:(lia) Hn Hgo).
  lia.
Qed.

End Step.

Hypothesis sr_coprime : Z.gcd s r = 1.
Hypothesis D_large : M < D.

Lemma loop_finds_convergent (fuel : nat) : forall p0 q0 p1 q1 n d p0' q0' p1' q1',
  cf_inv M D q0 q1 n d -> cf_conv N p0 q0 p1 q1 n d -> q1 <= r ->
  limit_denominator_loop fuel M p0 q0 p1 q1 n d = Return (p0', q0', p1', q1') ->
  s * q1' = r * p1' /\ 0 <= q0' <= M /\ 1 <= q1' <= M.
Proof.
  induction fuel as [| fuel IH];
    intros p0 q0 p1 q1 n d p0' q0' p1' q1' Hinv Hconv Hq1r Hrun;
    cbn [limit_denominator_loop] in Hrun; [discriminate |].
  destruct (Z.eqb_spec d 0) as [Hd0 | Hd0]; [discriminate |].
  pose proof Hinv as (Hq0 & Hq1 & Hd & HD & Hg).
  pose proof Hconv as (HN & Heps).
  assert (Ha : 1 <= n / d) by (apply Z.div_le_lower_bound; lia).
  assert (Htail : 0 <= n - n / d * d < d).
  { pose proof (Z.mod_pos_bound n d ltac:(lia)) as Hb.
    rewrite Z.mod_eq in Hb by lia. lia. }
  destruct (Z.gtb_spec (q0 + n / d * q1) M) as [Hbrk | Hgo].
  - injection Hrun as <- <- <- <-. split; [| lia].
    apply (near_is_convergent p0 q0 p1 q1 n d (n / d)); try assumption; lia.
  - apply IH in Hrun; [exact Hrun | | |].
    + apply cf_inv_step; [exact D_large | exact Hinv | lia].
    + split; [ring_simplify; lia |].
      destruct Heps as [E | E]; [right | left]; ring_simplify; lia.
    + apply (denominators_stay_below p0 q0 p1 q1 n d (n / d)); try assumption; lia.
Qed.

End Convergents.

(** A fraction that close to [N/D] is at least as close as any other
    fraction [pb/qb] with a denominator up to [M]. *)
Lemma near_is_closest (N D M s r pb qb : Z) :
  0 < D -> 0 < r <= M -> 0 < qb <= M -> near N D s r M ->
  Z.abs (s * D - N * r) * qb <= Z.abs (pb * D - N * qb) * r.
Proof.
  intros HD Hr Hqb Hnear.
  destruct (Z.eq_dec (pb * r) (s * qb)) as [Heq | Hne].
  - apply Z.eq_le_incl.
    rewrite <- (Z.abs_eq qb) at 1 by lia. rewrite <- (Z.abs_eq r) at 2 by lia.
    rewrite <- !Z.abs_mul. f_equal.
    replace ((pb * D - N * qb) * r) with (pb * r * D - N * qb * r) by ring.
    rewrite Heq. ring.
  - unfold near in Hnear.
    replace (r * N - s * D) with (- (s * D - N * r)) in Hnear by ring.
    rewrite Z.abs_opp in Hnear.
    set (X := Z.abs (s * D - N * r)) in *.
    set (Y := Z.abs (pb * D - N * qb)).
    destruct (Z.le_gt_cases (X * qb) (Y * r)) as [Hle | Hgt]; [exact Hle | exfalso].
    assert (HX : - X <= s * D - N * r <= X) by (unfold X; lia).
    assert (HY : - Y <= pb * D - N * qb <= Y) by (unfold Y; lia).
    clearbody X Y.
    assert (Hid : D * (pb * r - s * qb) = r * (pb * D - N * qb) - qb * (s * D - N * r))
      by ring.
    pose proof (mul_abs_bound r r (pb * D - N * qb) Y ltac:(lia) HY) as H1.
    pose proof (mul_abs_bound qb qb (s * D - N * r) X ltac:(lia) HX) as H2.
    assert (Hlow : D <= r * Y + qb * X).
    { destruct (Z.lt_trichotomy (pb * r - s * qb) 0) as [Hn | [Hz | Hp]]; [| lia |].
      - assert (D * (pb * r - s * qb) <= D * -1)
          by (apply Z.mul_le_mono_nonneg_l; lia). lia.
      - assert (D * 1 <= D * (pb * r - s * qb))
          by (apply Z.mul_le_mono_nonneg_l; lia). lia. }
    assert (HD2 : D < 2 * (qb * X)) by lia.
    assert (H3 : qb * X <= M * X) by (apply Z.mul_le_mono_nonneg_r; lia).
    assert (H4 : D * r < 2 * (M * X) * r) by (apply Z.mul_lt_mono_pos_r; lia).
    assert (H5 : 2 * (M * X) * r <= 2 * (M * X) * M).
    { apply Z.mul_le_mono_nonneg_l; [| lia]. lia. }
    replace (2 * M * M * X) with (2 * (M * X) * M) in Hnear by ring. lia.
Qed.

Lemma Qabs_diff_le (b2 b1 a : Q) :
  Z.abs (Qnum b2 * QDen a - Qnum a * QDen b2) * QDen b1
    <= Z.abs (Qnum b1 * QDen a - Qnum a * QDen b1) * QDen b2 ->
  (Qabs (b2 - a) <= Qabs (b1 - a))%Q.
Proof.
  destruct b2 as [n2 d2], b1 as [n1 d1], a as [na da]. cbn [Qnum Qden].
  intros H. unfold Qle, Qabs, Qminus, Qplus, Qopp. cbn [Qnum Qden].
  rewrite !Pos2Z.inj_mul.
  replace (n2 * Z.pos da + - na * Z.pos d2) with (n2 * Z.pos da - na * Z.pos d2) by ring.
  replace (n1 * Z.pos da + - na * Z.pos d1) with (n1 * Z.pos da - na * Z.pos d1) by ring.
  set (A := Z.abs (n2 * Z.pos da - na * Z.pos d2)) in *.
  set (B := Z.abs (n1 * Z.pos da - na * Z.pos d1)) in *.
  replace (A * (Z.pos d1 * Z.pos da)) with (A * Z.pos d1 * Z.pos da) by ring.
  replace (B * (Z.pos d2 * Z.pos da)) with (B * Z.pos d2 * Z.pos da) by ring.
  apply Z.mul_le_mono_nonneg_r; lia.
Qed.

Lemma lowest_terms_unique (q : Q) (s r : Z) :
  0 < r -> Z.gcd s r = 1 -> Z.gcd (Qnum q) (QDen q) = 1 ->
  Qnum q * r = s * QDen q -> q = s # Z.to_pos r.
Proof.
  intros Hr Hsr Hq Heq.
  rewrite <- (Qcanon.Qred_identity q Hq).
  rewrite <- (Qcanon.Qred_identity (s # Z.to_pos r)).
  - apply Qred_complete. unfold Qeq. cbn [Qnum Qden]. now rewrite Z2Pos.id by lia.
  - cbn [Qnum Qden]. now rewrite Z2Pos.id by lia.
Qed.

Lemma Fraction_lowest_terms (p q s r : Z) :
  0 < q -> 0 < r -> Z.gcd s r = 1 -> s * q = r * p ->
  Fraction p q = Return (s # Z.to_pos r).
Proof.
  intros Hq Hr Hsr Heq. unfold Fraction.
  destruct (Z.eqb_spec q 0); [lia |]. f_equal.
  rewrite Z.sgn_pos, Z.mul_1_l, Z.abs_eq by lia.
  rewrite <- (Qcanon.Qred_identity (s # Z.to_pos r)).
  - apply Qred_complete. unfold Qeq. cbn [Qnum Qden]. rewrite !Z2Pos.id by lia. lia.
  - cbn [Qnum Qden]. now rewrite Z2Pos.id by lia.
Qed.

Lemma limit_denominator_near (self : Q) (M s r : Z) :
  Z.gcd (numerator self) (denominator self) = 1 ->
  0 < r <= M -> Z.gcd s r = 1 ->
  near (numerator self) (denominator self) s r M ->
  limit_denominator self M = Return (s # Z.to_pos r).
Proof.
  intros Hg Hr Hsr Hnear. unfold limit_denominator.
  destruct (Z.ltb_spec M 1); [lia |].
  set (N := numerator self) in *. set (D := denominator self) in *.
  assert (HD : 0 < D) by (unfold D, denominator; lia).
  destruct (Z.leb_spec D M) as [Hsmall | Hlarge].
  - f_equal. apply lowest_terms_unique; try assumption; [lia |].
    fold N. change (QDen self) with D.
    destruct (Z.eq_dec (N * r) (s * D)) as [E | NE]; [exact E | exfalso].
    unfold near in Hnear.
    assert (1 <= Z.abs (r * N - s * D)) by lia.
    assert (D * r <= M * M) by nia.
    assert (2 * M * M * 1 <= 2 * M * M * Z.abs (r * N - s * D))
      by (apply Z.mul_le_mono_nonneg_l; nia).
    nia.
  - unfold cf_fuel. cbn [limit_denominator_loop].
    destruct (Z.eqb_spec D 0); [lia |].
    replace (1 + N / D * 0) with 1 by ring.
    destruct (Z.gtb_spec 1 M); [lia |].
    assert (Hinv : cf_inv M D 0 1 D (N - N / D * D)).
    { pose proof (Z.mod_pos_bound N D HD) as Hb.
      assert (Hmod : N - N / D * D = N mod D) by (rewrite Z.mod_eq by lia; ring).
      repeat split; try lia.
      replace (N - N / D * D) with (N + (- (N / D)) * D) by ring.
      rewrite Z.gcd_add_mult_diag_r, Z.gcd_comm. exact Hg. }
    destruct (loop_returns M D Hlarge (S (Z.to_nat (Z.log2 D)))
                (2 * S (Z.to_nat (Z.log2 D))) 1 0 (0 + N / D * 1) 1 D (N - N / D * D))
      as (p0 & q0 & p1 & q1 & Hrun & _); [lia | exact Hinv | |].
    { rewrite Nat2Z.inj_succ, Z2Nat.id by apply Z.log2_nonneg.
      apply Z.log2_spec. exact HD. }
    rewrite Hrun. cbn [bind].
    apply (loop_finds_convergent N D M s r HD Hr Hnear Hsr Hlarge) in Hrun;
      [| exact Hinv | | lia].
    2:{ split; [ring | right; ring]. }
    destruct Hrun as (Hconv & Hq0 & Hq1).
    destruct (Z.eqb_spec q1 0); [lia |].
    set (k := (M - q0) / q1).
    assert (Hk : k * q1 <= M - q0 < (k + 1) * q1).
    { unfold k. pose proof (Z.div_mod (M - q0) q1 ltac:(lia)).
      pose proof (Z.mod_pos_bound (M - q0) q1 ltac:(lia)). nia. }
    assert (Hqb : 0 < q0 + k * q1 <= M) by nia.
    destruct (Fraction_returns (p0 + k * p1) (q0 + k * q1)) as (b1 & Hb1); [lia |].
    rewrite Hb1, (Fraction_lowest_terms p1 q1 s r) by (assumption || lia).
    cbn [bind].
    apply Fraction_den_le in Hb1; [| lia].
    assert (Hcmp : Qle_bool (Qabs ((s # Z.to_pos r) - self)) (Qabs (b1 - self)) = true).
    { apply Qle_bool_iff. apply Qabs_diff_le. cbn [Qnum Qden].
      rewrite Z2Pos.id by lia. fold N. change (QDen self) with D.
      apply (near_is_closest N D M s r (Qnum b1) (QDen b1)); try assumption.
      unfold denominator in Hb1. lia. }
    rewrite Hcmp. reflexivity.
Qed.

(** [near] does not depend on the representation of the approximated
    fraction. *)
Lemma near_same_value (N1 D1 N2 D2 s r M : Z) :
  0 < D1 -> 0 < D2 -> N1 * D2 = N2 * D1 ->
  near N1 D1 s r M -> near N2 D2 s r M.
Proof.
  unfold near. intros H1 H2 Heq Hnear.
  apply (Z.mul_lt_mono_pos_r D1); [exact H1 |].
  apply (Z.mul_lt_mono_pos_r D2) in Hnear; [| exact H2].
  replace (2 * M * M * Z.abs (r * N2 - s * D2) * D1)
    with (2 * M * M * (Z.abs (r * N2 - s * D2) * Z.abs D1))
    by (rewrite (Z.abs_eq D1) by lia; ring).
  replace (2 * M * M * Z.abs (r * N1 - s * D1) * D2)
    with (2 * M * M * (Z.abs (r * N1 - s * D1) * Z.abs D2)) in Hnear
    by (rewrite (Z.abs_eq D2) by lia; ring).
  rewrite <- Z.abs_mul in *.
  replace ((r * N2 - s * D2) * D1) with ((r * N1 - s * D1) * D2)
    by (transitivity (r * (N1 * D2) - s * D1 * D2); [ring | rewrite Heq; ring]).
  lia.
Qed.

Lemma process_measurement_decodes (result : Result) (x n s r : Z) (e : float) :
  eigenphase_of result = Return e ->
  1 <= s -> 1 <= r <= n -> Z.gcd s r = 1 ->
  near (Qnum e) (QDen e) s r n ->
  x ^ r mod n = 1 ->
  process_measurement result x n = Return (Some r).
Proof.
  intros He Hs Hr Hg Hnear Hx.
  unfold process_measurement. rewrite He. cbn [bind].
  rewrite (limit_denominator_near (from_float e) n s r); try assumption; try lia.
  - cbn [bind]. unfold numerator, denominator. cbn [Qnum Qden].
    rewrite Z2Pos.id by lia.
    destruct (Z.eqb_spec s 0); [lia |]. now rewrite Hx.
  - apply gcd_Qred.
  - unfold numerator, denominator, from_float.
    apply (near_same_value (Qnum e) (QDen e)); try assumption; try lia.
    symmetry. apply (Qred_correct e).
Qed.

(** X5: if the eigenphase is within [1 / (2 n^2)] of [s / r], with [s >= 1]
    and [r <= n] coprime and [x ** r % n == 1], the continued-fraction
    approximation is exactly [s / r] and [process_measurement] returns [r]. *)
Theorem process_measurement_near_phase
    (result : Result) (x n s r : Z) (e : float) :
  1 <= s -> 1 <= r <= n -> Z.gcd s r = 1 ->
  eigenphase_of result = Return e ->
  (Qabs (e - inject_Z s / inject_Z r) * inject_Z (2 * n * n) < 1)%Q ->
  x ^ r mod n = 1 ->
  process_measurement result x n = Return (Some r).
Proof.
  intros Hs Hr Hg He Hclose Hx.
  apply (process_measurement_decodes result x n s r e); try assumption.
  rewrite <- (Z2Pos.id r) in Hclose at 1 by lia.
  rewrite <- Qmake_Qdiv in Hclose.
  destruct e as [ne de]. cbn [Qnum Qden].
  unfold Qlt, Qmult, Qabs, Qminus, Qplus, Qopp, inject_Z in Hclose.
  cbn [Qnum Qden] in Hclose.
  rewrite Pos2Z.inj_mul, Pos2Z.inj_mul, Z2Pos.id in Hclose by lia.
  unfold near.
  replace (r * ne - s * Z.pos de) with (ne * r + - s * Z.pos de) by ring.
  lia.
Qed.

Lemma process_measurement_near_phase_witness :
  process_measurement (mkResult 2731 13) 4 21 = Return (Some 3).
Proof.
  apply (process_measurement_near_phase (mkResult 2731 13) 4 21 1 3 (2731 # 8192));
    try lia; reflexivity.
Defined.

Lemma true_divide_pow2_exact (m b : Z) :
  0 < m < 2 ^ b -> 0 <= b <= 53 ->
  true_divide_pow2 m b = Return (m # Z.to_pos (2 ^ b)).
Proof.
  intros Hm Hb. unfold true_divide_pow2.
  destruct (Z.eqb_spec m 0); [lia |].
  assert (Hlog : Z.log2 m < b) by (apply Z.log2_lt_pow2; lia).
  rewrite bit_length_pos by lia.
  replace (Z.max 0 (Z.max (Z.log2 m + 1 - 53) (b - 1074))) with 0 by lia.
  unfold round_half_even. cbn [Z.leb Z.compare].
  rewrite Z.pow_0_r, Z.mul_1_r.
  assert (2 ^ b < 2 ^ (1024 + b)) by (apply Z.pow_lt_mono_r; lia).
  destruct (Z.leb_spec (2 ^ (1024 + b)) m); [lia | reflexivity].
Qed.

(** X6: on the exponent register of the order-finding circuit
    ([b = 2 * bit_length(n) + 3] qubits, at most 53), when the measured
    integer is the one closest to [2^b * s / r], with [s >= 1] and
    [r <= n] coprime and [x ** r % n == 1], [process_measurement] returns
    [r]. *)
Theorem process_measurement_closest_outcome (result : Result) (x n s r : Z) :
  let m := Z.of_N (exponent_as_integer result) in
  let b := Z.of_N (exponent_num_bits result) in
  b = 2 * bit_length n + 3 -> b <= 53 -> well_formed result ->
  1 <= s -> 1 <= r <= n -> Z.gcd s r = 1 ->
  2 * Z.abs (m * r - s * 2 ^ b) <= r ->
  x ^ r mod n = 1 ->
  process_measurement result x n = Return (Some r).
Proof.
  intros m b Hb Hb53 Hwf Hs Hr Hg Hclosest Hx.
  assert (Hm : 0 <= m < 2 ^ b).
  { unfold m, b, well_formed in *. split; [lia |].
    change 2 with (Z.of_N 2). rewrite <- N2Z.inj_pow. lia. }
  assert (Hpb : 0 < 2 ^ b) by lia.
  assert (Hm0 : m <> 0).
  { intros Hz. rewrite Hz in Hclosest.
    assert (1 * 2 ^ b <= s * 2 ^ b) by (apply Z.mul_le_mono_nonneg_r; lia).
    replace (0 * r - s * 2 ^ b) with (- (s * 2 ^ b)) in Hclosest by ring.
    rewrite Z.abs_opp, Z.abs_eq in Hclosest by lia.
    assert (Hcap : n < 2 ^ bit_length n).
    { pose proof (bit_length_capacity n). lia. }
    assert (2 ^ bit_length n <= 2 ^ b) by (apply Z.pow_le_mono_r; lia).
    lia. }
  apply (process_measurement_decodes result x n s r (m # Z.to_pos (2 ^ b)));
    try assumption.
  - apply true_divide_pow2_exact; lia.
  - cbn [Qnum Qden]. rewrite Z2Pos.id by lia. unfold near.
    replace (r * m - s * 2 ^ b) with (m * r - s * 2 ^ b) by ring.
    set (X := Z.abs (m * r - s * 2 ^ b)) in *.
    assert (HX : 0 <= X) by apply Z.abs_nonneg.
    assert (Hcap : n < 2 ^ bit_length n).
    { pose proof (bit_length_capacity n). lia. }
    assert (Hsq : n * n < 2 ^ bit_length n * 2 ^ bit_length n) by nia.
    assert (Hpow : 2 ^ b = 8 * (2 ^ bit_length n * 2 ^ bit_length n)).
    { rewrite Hb. pose proof (Z.log2_nonneg (Z.abs n)).
      assert (0 <= bit_length n) by (unfold bit_length; destruct (n =? 0); lia).
      rewrite Z.pow_add_r, Z.pow_mul_r by lia.
      change (2 ^ 2) with 4. change (2 ^ 3) with 8.
      replace (4 ^ bit_length n) with (2 ^ bit_length n * 2 ^ bit_length n).
      - ring.
      - rewrite <- Z.pow_mul_l. reflexivity. }
    clearbody X.
    assert (H1 : 2 * (n * n) * X <= (n * n) * r).
    { replace (2 * (n * n) * X) with ((n * n) * (2 * X)) by ring.
      apply Z.mul_le_mono_nonneg_l; nia. }
    assert (H2 : (n * n) * r < 2 ^ b * r) by (apply Z.mul_lt_mono_pos_r; lia).
    replace (2 * n * n * X) with (2 * (n * n) * X) by ring. lia.
Qed.

Lemma process_measurement_closest_outcome_witness :
  process_measurement (mkResult 2731 13) 4 21 = Return (Some 3).
Proof.
  apply (process_measurement_closest_outcome (mkResult 2731 13) 4 21 1 3);
    [reflexivity | cbn; lia | reflexivity | lia | lia | reflexivity
    | cbn; lia | reflexivity].
Defined.

(* ================================================================= *)
(** ** Composition of the gate and of the search *)

(** X12: [apply] adds exponents when composed, is the identity for
    exponent 0, has every [e2] with [base ** e2 % modulus == 1] as a period,
    and maps target 1 to [base ** e % modulus]. *)
Theorem apply_composes (target e1 e2 base modulus : Z) :
  1 <= modulus -> 0 <= target -> 0 <= e1 -> 0 <= e2 ->
  ModularExp.apply (ModularExp.apply target e1 base modulus) e2 base modulus
    = ModularExp.apply target (e1 + e2) base modulus /\
  ModularExp.apply target 0 base modulus = target /\
  (base ^ e2 mod modulus = 1 ->
     ModularExp.apply target (e1 + e2) base modulus
       = ModularExp.apply target e1 base modulus) /\
  (1 < modulus -> ModularExp.apply 1 e1 base modulus = base ^ e1 mod modulus).
Proof.
  intros Hm Ht He1 He2.
  assert (Hcomp :
    ModularExp.apply (ModularExp.apply target e1 base modulus) e2 base modulus
      = ModularExp.apply target (e1 + e2) base modulus).
  { destruct (Z.lt_ge_cases target modulus) as [Hin | Hout].
    - rewrite (apply_inside target e1), (apply_inside target (e1 + e2)) by lia.
      rewrite apply_inside by (apply Z.mod_pos_bound; lia).
      rewrite Z.mul_mod_idemp_l, Z.pow_add_r by lia. f_equal. ring.
    - rewrite !(apply_outside target) by lia. reflexivity. }
  split; [exact Hcomp |]. split; [| split].
  - destruct (Z.lt_ge_cases target modulus) as [Hin | Hout].
    + rewrite apply_inside, Z.pow_0_r, Z.mul_1_r by lia. apply Z.mod_small. lia.
    + apply apply_outside. lia.
  - intros Hperiod. rewrite <- Hcomp.
    destruct (Z.lt_ge_cases (ModularExp.apply target e1 base modulus) modulus)
      as [Hin | Hout].
    + rewrite apply_inside by lia.
      rewrite <- Z.mul_mod_idemp_r, Hperiod, Z.mul_1_r by lia.
      apply Z.mod_small.
      destruct (Z.lt_ge_cases target modulus) as [Htin | Htout].
      * rewrite apply_inside in * by lia.
        pose proof (Z.mod_pos_bound (target * base ^ e1) modulus ltac:(lia)). lia.
      * rewrite apply_outside in * by lia. lia.
    + apply apply_outside. lia.
  - intros Hm1. rewrite apply_inside, Z.mul_1_l by lia. reflexivity.
Qed.

Lemma apply_composes_witness :
  ModularExp.apply (ModularExp.apply 5 2 2 7) 3 2 7 = ModularExp.apply 5 (2 + 3) 2 7 /\
  ModularExp.apply 5 0 2 7 = 5 /\
  (2 ^ 3 mod 7 = 1 -> ModularExp.apply 5 (2 + 3) 2 7 = ModularExp.apply 5 2 2 7) /\
  (1 < 7 -> ModularExp.apply 1 2 2 7 = 2 ^ 2 mod 7).
Proof.
  apply (apply_composes 5 2 3 2 7); lia.
Defined.

(** X1: [find_factor] answers [None] for every prime [n], and 2 for every
    even [n] other than 2 (also for 0 and for negative even numbers),
    whatever the order finder, the attempt budget and the draws. *)
Theorem find_factor_shortcuts (F : FloatOps) (n : Z)
    (order_finder : order_finder_t) (max_attempts : Z) (draws : nat -> Z) :
  (Z.prime n -> find_factor n order_finder max_attempts draws = Return None) /\
  (n mod 2 = 0 -> n <> 2 ->
     find_factor n order_finder max_attempts draws = Return (Some 2)).
Proof.
  unfold find_factor. split.
  - intros Hp. apply isprime_spec in Hp. now rewrite Hp.
  - intros Heven Hn2. now rewrite (even_not_prime n Heven Hn2), Heven.
Qed.

(** X3: with the classical order finder, draws in [[2, n - 1]] and [n >= 2],
    [find_factor] returns; the only exceptions it can raise are those of
    the float routines inside [find_factor_of_prime_power].  In particular
    its assertion never fails. *)
Theorem find_factor_naive_returns (F : FloatOps) (n : Z) (fuel : nat)
    (max_attempts : Z) (draws : nat -> Z) :
  2 <= n -> (Z.to_nat n <= fuel)%nat -> (forall i, 2 <= draws i <= n - 1) ->
  (exists res,
     find_factor n (fun _ => naive_order_finder fuel) max_attempts draws
       = Return res) \/
  (exists e,
     find_factor_of_prime_power n = Raise e /\
     find_factor n (fun _ => naive_order_finder fuel) max_attempts draws
       = Raise e).
Proof.
  intros Hn Hfuel Hdraws. unfold find_factor.
  destruct (isprime n) eqn:Hprime; [left; eauto |].
  destruct (n mod 2 =? 0); [left; eauto |].
  destruct (find_factor_of_prime_power n) as [[c |] | e]; cbn [bind];
    [left; eauto | | right; eauto].
  assert (n <> 2) by (intros ->; discriminate Hprime).
  destruct (find_factor_loop_naive_returns n fuel draws ltac:(lia) Hfuel Hdraws
              (Z.to_nat max_attempts) 0%nat) as (res & ->).
  left. eauto.
Qed.

Lemma find_factor_naive_returns_witness :
  (exists res,
     find_factor (F := reference_float_ops) 15
       (fun _ => naive_order_finder 15) 5 (fun _ => 7) = Return res) \/
  (exists e,
     find_factor_of_prime_power (F := reference_float_ops) 15 = Raise e /\
     find_factor (F := reference_float_ops) 15
       (fun _ => naive_order_finder 15) 5 (fun _ => 7) = Raise e).
Proof.
  apply (find_factor_naive_returns reference_float_ops 15 15 5 (fun _ => 7));
    [lia | cbn; lia | intros _; lia].
Defined.

Lemma find_factor_attempt_with_even_order_witness :
  (7 ^ (4 / 2) mod 15 <> 15 - 1 ->
     1 < Z.gcd (7 ^ (4 / 2) mod 15 - 1) 15 < 15 /\
     find_factor_loop 15 (fun _ => naive_order_finder 15) (fun _ => 7) 0 1
       = Return (Some (Z.gcd (7 ^ (4 / 2) mod 15 - 1) 15))) /\
  (7 ^ (4 / 2) mod 15 = 15 - 1 -> 15 mod 2 = 1 ->
     find_factor_loop 15 (fun _ => naive_order_finder 15) (fun _ => 7) 0 1
       = find_factor_loop 15 (fun _ => naive_order_finder 15) (fun _ => 7) 1 0).
Proof.
  apply (find_factor_attempt_with_even_order 15
           (fun _ => naive_order_finder 15) (fun _ => 7) 0 0 4);
    [lia | reflexivity | reflexivity | | reflexivity].
  split; [lia |]. split; [reflexivity |].
  intros r' Hr'. assert (Hc : r' = 1 \/ r' = 2 \/ r' = 3) by lia.
  destruct Hc as [-> | [-> | ->]]; discriminate.
Defined.

Lemma process_measurement_result_bounds_witness :
  1 <= 6 <= 21 /\ 4 ^ 6 mod 21 = 1 /\ (is_order 4 21 3 -> (3 | 6)).
Proof.
  apply (process_measurement_result_bounds (mkResult 1365 13) 4 21 6 3).
  reflexivity.
Defined.

(* ================================================================= *)
(** ** The quantum order finder on a good sample *)

Lemma order_le_modulus (x n r : Z) :
  1 < n -> Z.gcd x n = 1 -> is_order x n r -> r <= n.
Proof.
  intros Hn Hg (Hr & _ & Hmin).
  destruct (power_returns_to_one x n Hn Hg) as (R & HR & HR1).
  destruct (Z.le_gt_cases r R) as [Hle | Hgt]; [lia |].
  exfalso. apply (Hmin R); [lia | exact HR1].
Qed.

Lemma make_order_finding_circuit_exponent (x n : Z) (c : Circuit) :
  make_order_finding_circuit x n = Return c ->
  Z.of_nat (length (exponent c)) = 2 * bit_length n + 3.
Proof.
  unfold make_order_finding_circuit, ModularExp.init.
  assert (0 <= bit_length n).
  { unfold bit_length. pose proof (Z.log2_nonneg (Z.abs n)).
    destruct (n =? 0); lia. }
  destruct (bit_length n =? 0); [discriminate |].
  destruct (_ <? _); [discriminate |]. unfold bind.
  intros Heq.
  assert (Hlen : length (exponent c)
                 = length (range (bit_length n) (3 * bit_length n + 3))).
  { apply (f_equal (fun o => match o with
                             | Return c0 => length (exponent c0)
                             | Raise _ => O
                             end)) in Heq.
    symmetry. exact Heq. }
  rewrite Hlen, range_length. lia.
Qed.

(** X13: for valid arguments and a modulus of at most 25 bits, when the
    one sample of the circuit measures, on the circuit's exponent register,
    the integer closest to [2^b * s / r], where [r] is the order of [x]
    and [s >= 1] is coprime to [r], [quantum_order_finder] returns the
    order [r]. *)
Theorem quantum_order_finder_finds_order
    (sample : Circuit -> Result) (x n s r : Z) :
  2 <= x < n -> Z.gcd x n = 1 -> 2 * bit_length n + 3 <= 53 ->
  is_order x n r -> 1 <= s -> Z.gcd s r = 1 ->
  (forall c, make_order_finding_circuit x n = Return c ->
     let m := Z.of_N (exponent_as_integer (sample c)) in
     let b := Z.of_N (exponent_num_bits (sample c)) in
     b = Z.of_nat (length (exponent c)) /\
     well_formed (sample c) /\
     2 * Z.abs (m * r - s * 2 ^ b) <= r) ->
  quantum_order_finder sample x n = Return (Some r).
Proof.
  intros Hx Hg Hbits Hord Hs Hsr Hsample.
  unfold quantum_order_finder. rewrite valid_argument by assumption.
  destruct (make_order_finding_circuit_returns x n ltac:(lia)) as (c & Hc).
  rewrite Hc. cbn [bind].
  destruct (Hsample c Hc) as (Hb & Hwf & Hclosest).
  rewrite (make_order_finding_circuit_exponent x n c Hc) in Hb.
  pose proof (order_le_modulus x n r ltac:(lia) Hg Hord) as Hrn.
  destruct Hord as (Hr & Hr1 & _).
  set (m := Z.of_N (exponent_as_integer (sample c))) in *.
  set (b := Z.of_N (exponent_num_bits (sample c))) in *.
  assert (Hm : 0 <= m < 2 ^ b).
  { unfold m, b, well_formed in *. split; [lia |].
    change 2 with (Z.of_N 2). rewrite <- N2Z.inj_pow. lia. }
  assert (Hcap : n < 2 ^ bit_length n).
  { pose proof (bit_length_capacity n). lia. }
  assert (HL : 0 <= bit_length n).
  { unfold bit_length. pose proof (Z.log2_nonneg (Z.abs n)).
    destruct (n =? 0); lia. }
  assert (Hpow : 2 ^ b = 8 * (2 ^ bit_length n * 2 ^ bit_length n)).
  { rewrite Hb, Z.pow_add_r, Z.pow_mul_r by lia.
    change (2 ^ 2) with 4. change (2 ^ 3) with 8.
    replace (4 ^ bit_length n) with (2 ^ bit_length n * 2 ^ bit_length n).
    - ring.
    - rewrite <- Z.pow_mul_l. reflexivity. }
  assert (Hsq : n * n < 2 ^ bit_length n * 2 ^ bit_length n) by nia.
  assert (Hm0 : 0 < m).
  { destruct (Z.eq_dec m 0) as [Hz | ?]; [exfalso | lia].
    rewrite Hz in Hclosest.
    replace (0 * r - s * 2 ^ b) with (- (s * 2 ^ b)) in Hclosest by ring.
    assert (1 * 2 ^ b <= s * 2 ^ b) by (apply Z.mul_le_mono_nonneg_r; lia).
    rewrite Z.abs_opp, Z.abs_eq in Hclosest by lia. nia. }
  apply (process_measurement_decodes (sample c) x n s r (m # Z.to_pos (2 ^ b)));
    try assumption; try lia.
  - apply true_divide_pow2_exact; lia.
  - cbn [Qnum Qden]. rewrite Z2Pos.id by lia. unfold near.
    replace (r * m - s * 2 ^ b) with (m * r - s * 2 ^ b) by ring.
    set (X := Z.abs (m * r - s * 2 ^ b)) in *.
    assert (HX : 0 <= X) by apply Z.abs_nonneg.
    clearbody X.
    assert (H1 : 2 * (n * n) * X <= (n * n) * r).
    { replace (2 * (n * n) * X) with ((n * n) * (2 * X)) by ring.
      apply Z.mul_le_mono_nonneg_l; nia. }
    assert (H2 : (n * n) * r < 2 ^ b * r) by (apply Z.mul_lt_mono_pos_r; lia).
    replace (2 * n * n * X) with (2 * (n * n) * X) by ring. lia.
Qed.

Lemma quantum_order_finder_finds_order_witness :
  quantum_order_finder
    (fun c => mkResult 2731 (N.of_nat (length (exponent c)))) 4 21
  = Return (Some 3).
Proof.
  apply (quantum_order_finder_finds_order
           (fun c => mkResult 2731 (N.of_nat (length (exponent c)))) 4 21 1 3);
    [lia | reflexivity | cbn; lia | | lia | reflexivity |].
  - split; [lia |]. split; [reflexivity |].
    intros r' Hr'. assert (Hc : r' = 1 \/ r' = 2) by lia.
    destruct Hc as [-> | ->]; discriminate.
  - intros c Hc. injection Hc as <-.
    split; [reflexivity |]. split; [reflexivity | apply Z.leb_le; reflexivity].
Defined.

(* ================================================================= *)
(** ** Concrete scenarios *)

Example naive_order_10_mod_33 :
  naive_order_finder 33 10 33 = Return (Some 2).
Proof. reflexivity. Qed.

Example naive_order_7_mod_15 :
  naive_order_finder 15 7 15 = Return (Some 4).
Proof. reflexivity. Qed.

Example find_factor_15_draw_7 :
  find_factor (F := reference_float_ops) 15
    (fun _ => naive_order_finder 15) 5 (fun _ => 7) = Return (Some 3).
Proof. reflexivity. Qed.

Example find_factor_33_draw_10 :
  find_factor (F := reference_float_ops) 33
    (fun _ => naive_order_finder 33) 5 (fun _ => 10) = Return (Some 3).
Proof. reflexivity. Qed.

Example find_factor_prime :
  find_factor (F := reference_float_ops) 13
    (fun _ => naive_order_finder 13) 5 (fun _ => 2) = Return None.
Proof. reflexivity. Qed.

Example decode_one_sixth :
  process_measurement (mkResult 1365 13) 4 21 = Return (Some 6).
Proof. reflexivity. Qed.

Example decode_zero :
  process_measurement (mkResult 0 13) 4 21 = Return None.
Proof. reflexivity. Qed.
